(** * An open-addressing, double-hashing string table: [hash_table.c]

    A shallow embedding of [hash_table.c] and [hash_table.h] and the
    properties of the table that follow from the code.

    Conventions of the embedding.
    - A C [int] is a [Z] in [[INT_MIN, INT_MAX]] and a C [long] a [Z] in
      [[LONG_MIN, LONG_MAX]] (LP64).  Signed overflow, division by zero, an
      out-of-range conversion from [double] and an out-of-bounds array read
      are undefined behaviour in C: the embedding returns [Undefined] there.
    - A [while] loop is a [Fixpoint] on a fuel counter, one unit per
      evaluation of the loop test; [OutOfFuel] means the fuel ran out.
    - A NUL-terminated C string is a [string] (without NUL characters);
      [strdup] is the identity and [strcmp (a, b) == 0] is [String.eqb a b].
    - An [ht_item*] slot of the bucket array is a [slot]: [NULL] is [Empty],
      the address of the static [HT_DELETED_ITEM] is [Tombstone], and any
      other pointer is [Occupied key value].  Allocation succeeds and
      [free] of an allocated block has no effect on the model. *)

From Stdlib Require Import ZArith Ascii String Lia Bool.
From stdpp Require Import base list strings.

Local Open Scope string_scope.
Local Open Scope Z_scope.

(** ** Outcomes of a C computation *)

Inductive outcome (A : Type) : Type :=
| Done (a : A)
| Undefined
| OutOfFuel.

Arguments Done {A} a.
Arguments Undefined {A}.
Arguments OutOfFuel {A}.

Definition bind {A B : Type} (c : outcome A) (k : A -> outcome B) : outcome B :=
  match c with
  | Done a => k a
  | Undefined => Undefined
  | OutOfFuel => OutOfFuel
  end.

Notation "'let*' x ':=' c 'in' k" := (bind c (fun x => k))
  (at level 10, x name, c at level 100, k at level 200).

(** ** Machine integers *)

Definition INT_MAX : Z := 2147483647.
Definition INT_MIN : Z := -2147483648.
Definition LONG_MAX : Z := 9223372036854775807.
Definition LONG_MIN : Z := -9223372036854775808.

(** The value of an [int] expression: undefined when it overflows. *)
Definition int_val (z : Z) : outcome Z :=
  if (INT_MIN <=? z) && (z <=? INT_MAX) then Done z else Undefined.

(** The value of a [long] expression: undefined when it overflows. *)
Definition long_val (z : Z) : outcome Z :=
  if (LONG_MIN <=? z) && (z <=? LONG_MAX) then Done z else Undefined.

(** C's [%]: the remainder of the division that truncates towards zero. *)
Definition c_rem (a b : Z) : outcome Z :=
  if b =? 0 then Undefined else Done (Z.rem a b).

(** ** Characters and [pow] *)

(** [s[i]] promoted to an integer.  Plain [char] is signed on the usual
    targets of gcc and clang (x86); for 7-bit characters the signed and the
    unsigned conventions agree. *)
Definition char_val (c : ascii) : Z :=
  let n := Z.of_N (N_of_ascii c) in
  if n <? 128 then n else n - 256.

(** A non-negative integer rounded to the nearest [double] (53-bit
    significand, ties to even).  Integers below [2^53] are exact. *)
Definition double_of_Z (n : Z) : Z :=
  let e := Z.log2 n - 52 in
  if e <=? 0 then n
  else
    let q := Z.shiftr n e in
    let r := n - Z.shiftl q e in
    let half := Z.shiftl 1 (e - 1) in
    let q' := if r <? half then q
              else if half <? r then q + 1
              else if Z.even q then q else q + 1 in
    Z.shiftl q' e.

(** [pow (a, k)] of [math.h] for integers [a] and [k >= 0]: the power
    rounded to a [double]. *)
Definition pow (a k : Z) : Z :=
  let p := a ^ k in
  Z.sgn p * double_of_Z (Z.abs p).

(** [(long) d] for an integral [double] [d]: undefined out of range. *)
Definition long_of_double (d : Z) : outcome Z := long_val d.

(** ** Constants of [hash_table.c] *)

Definition HT_PRIME_1 : Z := 151.
Definition HT_PRIME_2 : Z := 163.
Definition HT_INITIAL_BASE_SIZE : Z := 50.

(** ** [ht_hash] and [ht_get_hash] *)

(** The body of the [for] loop of [ht_hash]: [cs] holds the characters
    [s[i], s[i+1], ...] still to read, so [len_s - (i+1)] is the length of
    the tail of [cs]. *)
Fixpoint ht_hash_loop (cs : string) (a m : Z) (hash : Z) : outcome Z :=
  match cs with
  | EmptyString => Done hash
  | String c cs' =>
      let* p := long_of_double (pow a (Z.of_nat (String.length cs'))) in
      let* term := long_val (p * char_val c) in
      let* hash1 := long_val (hash + term) in
      let* hash2 := c_rem hash1 m in
      ht_hash_loop cs' a m hash2
  end.

Definition ht_hash (s : string) (a m : Z) : outcome Z :=
  let* hash := ht_hash_loop s a m 0 in
  int_val hash.

Definition ht_get_hash (s : string) (num_buckets attempt : Z) : outcome Z :=
  let* hash_a := ht_hash s HT_PRIME_1 num_buckets in
  let* hash_b := ht_hash s HT_PRIME_2 num_buckets in
  let* step := int_val (hash_b + 1) in
  let* prod := int_val (attempt * step) in
  let* sum := int_val (hash_a + prod) in
  c_rem sum num_buckets.

(** The polynomial that [ht_hash] evaluates: the characters of [s] as the
    digits of a number in base [a], most significant first. *)
Fixpoint poly_hash (s : string) (a : Z) : Z :=
  match s with
  | EmptyString => 0
  | String c s' => a ^ Z.of_nat (String.length s') * char_val c + poly_hash s' a
  end.

(** The strings of 7-bit characters. *)
Fixpoint ascii7 (s : string) : bool :=
  match s with
  | EmptyString => true
  | String c s' => (Z.of_N (N_of_ascii c) <? 128) && ascii7 s'
  end.

(** ** The table *)

(** One cell of [ht_item** items]. *)
Inductive slot : Type :=
| Empty                               (* NULL *)
| Tombstone                           (* &HT_DELETED_ITEM *)
| Occupied (key value : string).      (* a live ht_item *)

(** [ht_hash_table], with the [base_size] field that [hash_table.c] reads
    and writes. *)
Record ht_hash_table : Type := mk_ht {
  base_size : Z;
  size : Z;
  count : Z;
  items : list slot
}.

(** [ht->items[index]]: reading outside the array is undefined. *)
Definition read_slot (its : list slot) (index : Z) : outcome slot :=
  if index <? 0 then Undefined
  else match its !! Z.to_nat index with
       | Some s => Done s
       | None => Undefined
       end.

(** [ht->items[index] = item]. *)
Definition write_slot (ht : ht_hash_table) (index : Z) (item : slot) : ht_hash_table :=
  mk_ht (base_size ht) (size ht) (count ht) (<[Z.to_nat index := item]> (items ht)).

Definition set_count (ht : ht_hash_table) (c : Z) : ht_hash_table :=
  mk_ht (base_size ht) (size ht) c (items ht).

(** [ht_new_item]: the item owns copies of both strings. *)
Definition ht_new_item (k v : string) : slot := Occupied k v.

(** Modelled from the spec: primality by trial division, for
    [next_prime] below. *)
Fixpoint has_divisor (fuel : nat) (d x : Z) : bool :=
  match fuel with
  | O => false
  | S fuel' =>
      if x <? d * d then false
      else if x mod d =? 0 then true
      else has_divisor fuel' (d + 1) x
  end.

Definition is_prime (x : Z) : bool :=
  (2 <=? x) && negb (has_divisor (Z.to_nat x) 2 x).

Fixpoint next_prime_loop (fuel : nat) (x : Z) : Z :=
  match fuel with
  | O => x
  | S fuel' => if is_prime x then x else next_prime_loop fuel' (x + 1)
  end.

(** Modelled from the spec: [next_prime] is called by [hash_table.c] but
    defined in a file that is not part of the sources at hand.  The spec
    gives the capacity as "the next prime >= a target size". *)
Definition next_prime (x : Z) : Z := next_prime_loop (Z.to_nat x + 2) x.

(** [ht_new_sized]: [xcalloc] zeroes the array, every slot is [NULL]. *)
Definition ht_new_sized (base : Z) : ht_hash_table :=
  let sz := next_prime base in
  mk_ht base sz 0 (replicate (Z.to_nat sz) Empty).

Definition ht_new : ht_hash_table := ht_new_sized HT_INITIAL_BASE_SIZE.

(** *** [ht_insert] *)

(** The [while (cur_item != NULL)] loop of [ht_insert].  [index] is the
    bucket whose content [cur_item] the test looks at and [i] the next
    attempt number. *)
Fixpoint ht_insert_loop (fuel : nat) (ht : ht_hash_table) (key value : string)
    (index i : Z) : outcome ht_hash_table :=
  match fuel with
  | O => OutOfFuel
  | S fuel' =>
      let* cur_item := read_slot (items ht) index in
      let next :=
        let* index' := ht_get_hash key (size ht) i in
        let* i' := int_val (i + 1) in
        ht_insert_loop fuel' ht key value index' i' in
      match cur_item with
      | Empty =>
          let ht' := write_slot ht index (ht_new_item key value) in
          let* c := int_val (count ht' + 1) in
          Done (set_count ht' c)
      | Tombstone => next
      | Occupied k _ =>
          if String.eqb k key
          then Done (write_slot ht index (ht_new_item key value))
          else next
      end
  end.

Definition ht_insert (fuel : nat) (ht : ht_hash_table) (key value : string)
    : outcome ht_hash_table :=
  let* index := ht_get_hash key (size ht) 0 in
  ht_insert_loop fuel ht key value index 1.

(** *** [ht_search] *)

(** The result is [item->value], or [None] for the [NULL] pointer. *)
Fixpoint ht_search_loop (fuel : nat) (ht : ht_hash_table) (key : string)
    (index i : Z) : outcome (option string) :=
  match fuel with
  | O => OutOfFuel
  | S fuel' =>
      let* item := read_slot (items ht) index in
      let next :=
        let* index' := ht_get_hash key (size ht) i in
        let* i' := int_val (i + 1) in
        ht_search_loop fuel' ht key index' i' in
      match item with
      | Empty => Done None
      | Tombstone => next
      | Occupied k v => if String.eqb k key then Done (Some v) else next
      end
  end.

Definition ht_search (fuel : nat) (ht : ht_hash_table) (key : string)
    : outcome (option string) :=
  let* index := ht_get_hash key (size ht) 0 in
  ht_search_loop fuel ht key index 1.

(** *** [ht_delete] *)

Fixpoint ht_delete_loop (fuel : nat) (ht : ht_hash_table) (key : string)
    (index i : Z) : outcome ht_hash_table :=
  match fuel with
  | O => OutOfFuel
  | S fuel' =>
      let* item := read_slot (items ht) index in
      let next :=
        let* index' := ht_get_hash key (size ht) i in
        let* i' := int_val (i + 1) in
        ht_delete_loop fuel' ht key index' i' in
      match item with
      | Empty => Done ht
      | Tombstone => next
      | Occupied k _ =>
          if String.eqb k key
          then
            let ht' := write_slot ht index Tombstone in
            let* c := int_val (count ht' - 1) in
            Done (set_count ht' c)
          else next
      end
  end.

Definition ht_delete (fuel : nat) (ht : ht_hash_table) (key : string)
    : outcome ht_hash_table :=
  let* index := ht_get_hash key (size ht) 0 in
  ht_delete_loop fuel ht key index 1.

(** *** [ht_resize], [ht_resize_up], [ht_resize_down]

    These three are [static] and no function of [hash_table.c] calls
    [ht_resize_up] or [ht_resize_down]. *)

(** The [for] loop of [ht_resize] over the old bucket array. *)
Fixpoint ht_resize_loop (fuel : nat) (old : list slot) (new_ht : ht_hash_table)
    : outcome ht_hash_table :=
  match old with
  | [] => Done new_ht
  | Occupied k v :: old' =>
      let* new_ht' := ht_insert fuel new_ht k v in
      ht_resize_loop fuel old' new_ht'
  | _ :: old' => ht_resize_loop fuel old' new_ht
  end.

Definition ht_resize (fuel : nat) (ht : ht_hash_table) (base : Z)
    : outcome ht_hash_table :=
  if base <? HT_INITIAL_BASE_SIZE then Done ht
  else
    let* new_ht := ht_resize_loop fuel (items ht) (ht_new_sized base) in
    Done (mk_ht (base_size new_ht) (size new_ht) (count new_ht) (items new_ht)).

Definition ht_resize_up (fuel : nat) (ht : ht_hash_table) : outcome ht_hash_table :=
  let* doubled := int_val (base_size ht * 2) in
  ht_resize fuel ht (next_prime doubled).

Definition ht_resize_down (fuel : nat) (ht : ht_hash_table) : outcome ht_hash_table :=
  ht_resize fuel ht (next_prime (Z.quot (base_size ht) 2)).

(** ** The probe walk shared by the three operations

    The loops of [ht_insert], [ht_search] and [ht_delete] walk the same
    buckets and stop at the same place: at a [NULL] bucket ([Miss]) or at a
    live item whose key compares equal ([Hit]).  [probe] is that walk. *)

Inductive probe_stop : Type :=
| Hit (index : Z) (value : string)
| Miss (index : Z).

Definition stop_index (r : probe_stop) : Z :=
  match r with
  | Hit index _ => index
  | Miss index => index
  end.

(** Where the walk for [key] stops when it looks at slot [s] of bucket
    [index]; [None] when it goes on. *)
Definition stop_at (key : string) (index : Z) (s : slot) : option probe_stop :=
  match s with
  | Empty => Some (Miss index)
  | Tombstone => None
  | Occupied k v => if String.eqb k key then Some (Hit index v) else None
  end.

Fixpoint probe_loop (fuel : nat) (its : list slot) (num_buckets : Z)
    (key : string) (index i : Z) : outcome probe_stop :=
  match fuel with
  | O => OutOfFuel
  | S fuel' =>
      let* cur := read_slot its index in
      match stop_at key index cur with
      | Some r => Done r
      | None =>
          let* index' := ht_get_hash key num_buckets i in
          let* i' := int_val (i + 1) in
          probe_loop fuel' its num_buckets key index' i'
      end
  end.

Definition probe (fuel : nat) (ht : ht_hash_table) (key : string)
    : outcome probe_stop :=
  let* index := ht_get_hash key (size ht) 0 in
  probe_loop fuel (items ht) (size ht) key index 1.

(** What each operation does at the place where the walk stopped. *)
Definition insert_at (ht : ht_hash_table) (key value : string) (r : probe_stop)
    : outcome ht_hash_table :=
  match r with
  | Hit index _ => Done (write_slot ht index (ht_new_item key value))
  | Miss index =>
      let ht' := write_slot ht index (ht_new_item key value) in
      let* c := int_val (count ht' + 1) in
      Done (set_count ht' c)
  end.

Definition search_at (r : probe_stop) : option string :=
  match r with
  | Hit _ value => Some value
  | Miss _ => None
  end.

Definition delete_at (ht : ht_hash_table) (r : probe_stop)
    : outcome ht_hash_table :=
  match r with
  | Hit index _ =>
      let ht' := write_slot ht index Tombstone in
      let* c := int_val (count ht' - 1) in
      Done (set_count ht' c)
  | Miss _ => Done ht
  end.

(** ** Reachable tables and their invariants *)

(** The tables a client can build through the public interface. *)
Inductive reachable : ht_hash_table -> Prop :=
| reachable_new : reachable ht_new
| reachable_insert fuel ht key value ht' :
    reachable ht ->
    ht_insert fuel ht key value = Done ht' ->
    reachable ht'
| reachable_delete fuel ht key ht' :
    reachable ht ->
    ht_delete fuel ht key = Done ht' ->
    reachable ht'.

(** Bucket [index] holds a live item with key [key]. *)
Definition holds_key (ht : ht_hash_table) (index : Z) (key : string) : Prop :=
  exists value, read_slot (items ht) index = Done (Occupied key value).

Definition no_dup_keys (ht : ht_hash_table) : Prop :=
  forall i j key, holds_key ht i key -> holds_key ht j key -> i = j.

(** Every live item is found by the walk of its own key, in its own
    bucket. *)
Definition table_ok (ht : ht_hash_table) : Prop :=
  forall index key value,
    read_slot (items ht) index = Done (Occupied key value) ->
    exists fuel, probe fuel ht key = Done (Hit index value).

(** The number of live items of a bucket array. *)
Definition slot_is_live (s : slot) : bool :=
  match s with
  | Occupied _ _ => true
  | _ => false
  end.

Fixpoint live_items (its : list slot) : nat :=
  match its with
  | [] => 0
  | s :: its' => (if slot_is_live s then 1 else 0) + live_items its'
  end.

(** [count] is the number of live items and [size] the length of the
    bucket array. *)
Definition count_ok (ht : ht_hash_table) : Prop :=
  count ht = Z.of_nat (live_items (items ht)) /\
  size ht = Z.of_nat (length (items ht)).

(** [returns c] tells whether the computation [c] comes back with a
    result. *)
Definition returns {A : Type} (c : outcome A) : bool :=
  match c with
  | Done _ => true
  | _ => false
  end.

Definition result_or {A : Type} (default : A) (c : outcome A) : A :=
  match c with
  | Done a => a
  | _ => default
  end.

(** [slot_has_key key s]: [s] is a live item whose key is [key]. *)
Definition slot_has_key (key : string) (s : slot) : bool :=
  match s with
  | Occupied k _ => String.eqb k key
  | _ => false
  end.

(** [slot_passes key s]: the walk for [key] goes on past slot [s]. *)
Definition slot_passes (key : string) (s : slot) : bool :=
  match s with
  | Empty => false
  | Tombstone => true
  | Occupied k _ => negb (String.eqb k key)
  end.

(** Insert the keys of a list one after the other, all with one value. *)
Fixpoint ht_insert_all (fuel : nat) (ht : ht_hash_table) (keys : list string)
    (value : string) : outcome ht_hash_table :=
  match keys with
  | [] => Done ht
  | key :: keys' =>
      let* ht' := ht_insert fuel ht key value in
      ht_insert_all fuel ht' keys' value
  end.

(** ** Tables used as examples *)

(** The 53 one-character keys with the codes 53 ("5") to 105 ("i"). *)
Definition fill_keys : list string :=
  map (fun n => String (ascii_of_nat n) EmptyString) (seq 53 53).

(** A fresh table after the 53 keys of [fill_keys] were inserted. *)
Definition t_full : ht_hash_table :=
  result_or ht_new (ht_insert_all 1 ht_new fill_keys "v").

(** A fresh table after [ht_insert (ht, "i", "1")]. *)
Definition t_i : ht_hash_table :=
  result_or ht_new (ht_insert 1 ht_new "i" "1").

(** [t_i] after [ht_delete (ht, "i")]. *)
Definition t_i_deleted : ht_hash_table :=
  result_or ht_new (ht_delete 1 t_i "i").

(** A fresh table after [ht_insert (ht, "a", "1")], then after
    [ht_delete (ht, "a")], then after [ht_insert (ht, "a", "2")]. *)
Definition t_a : ht_hash_table :=
  result_or ht_new (ht_insert 1 ht_new "a" "1").

Definition t_a_deleted : ht_hash_table :=
  result_or ht_new (ht_delete 1 t_a "a").

Definition t_a_again : ht_hash_table :=
  result_or ht_new (ht_insert 2 t_a_deleted "a" "2").

(** ** Teardown *)

(** [ht_del_item (i)] is [free (i->key); free (i->value); free (i)].  For a
    live item the three blocks come from [strdup] and [xmalloc].  For the
    static [HT_DELETED_ITEM] both strings are [NULL], which [free] accepts,
    but the item itself is no allocated block: freeing it is undefined.  A
    [NULL] item cannot be dereferenced. *)
Definition ht_del_item (i : slot) : outcome unit :=
  match i with
  | Occupied _ _ => Done tt
  | Tombstone => Undefined
  | Empty => Undefined
  end.

(** The [for] loop of [ht_del_hash_table]: every item that is not [NULL]
    goes to [ht_del_item]. *)
Fixpoint ht_del_hash_table_loop (its : list slot) : outcome unit :=
  match its with
  | [] => Done tt
  | item :: its' =>
      let* _u := match item with
                 | Empty => Done tt
                 | _ => ht_del_item item
                 end in
      ht_del_hash_table_loop its'
  end.

(** [ht_del_hash_table]: the loop, then [free (ht->items); free (ht)]. *)
Definition ht_del_hash_table (ht : ht_hash_table) : outcome unit :=
  ht_del_hash_table_loop (items ht).

(** ** Measures of a bucket array *)

Definition slot_is_empty (s : slot) : bool :=
  match s with
  | Empty => true
  | _ => false
  end.

Definition slot_is_tombstone (s : slot) : bool :=
  match s with
  | Tombstone => true
  | _ => false
  end.

(** The number of [NULL] buckets. *)
Fixpoint empty_items (its : list slot) : nat :=
  match its with
  | [] => 0
  | s :: its' => (if slot_is_empty s then 1 else 0) + empty_items its'
  end.

(** The bucket that attempt [i] looks at, for the two hashes [ha] and [hb]
    of a key and [n] buckets. *)
Definition probe_index (ha hb n i : Z) : Z := (ha + i * (hb + 1)) mod n.

(** [t_a] after [ht_insert (ht, "b", "2")]. *)
Definition t_ab : ht_hash_table :=
  result_or ht_new (ht_insert 1 t_a "b" "2").

(** The keys of the live items of a bucket array, in bucket order. *)
Fixpoint live_keys (its : list slot) : list string :=
  match its with
  | [] => []
  | Occupied k _ :: its' => k :: live_keys its'
  | _ :: its' => live_keys its'
  end.

(** Some bucket of the table holds a live item with this key and value. *)
Definition has_item (ht : ht_hash_table) (key value : string) : Prop :=
  exists index, read_slot (items ht) index = Done (Occupied key value).

(** No bucket of the table holds the tombstone. *)
Definition no_tombstone (ht : ht_hash_table) : Prop :=
  forall index, read_slot (items ht) index <> Done Tombstone.

(** [t_ab] after [ht_delete (ht, "a")], and that table rebuilt by
    [ht_resize] with the base size 50. *)
Definition t_b : ht_hash_table :=
  result_or ht_new (ht_delete 1 t_ab "a").

Definition t_b_resized : ht_hash_table :=
  result_or ht_new (ht_resize 1 t_b 50).

(** [t_b] rebuilt by [ht_resize_up]. *)
Definition t_b_up : ht_hash_table :=
  result_or ht_new (ht_resize_up 1 t_b).

(** [t_a] after [ht_insert (ht, ",", "2")]: "," and "a" share the first
    bucket 44, so the second item goes to bucket 36.  Then that table after
    the overwrite [ht_insert (ht, ",", "3")], and after
    [ht_delete (ht, "a")]. *)
Definition t_collide : ht_hash_table :=
  result_or ht_new (ht_insert 2 t_a "," "2").

Definition t_collide_overwritten : ht_hash_table :=
  result_or ht_new (ht_insert 2 t_collide "," "3").

Definition t_collide_deleted : ht_hash_table :=
  result_or ht_new (ht_delete 1 t_collide "a").

(** ** Lemmas on the outcome monad and the bucket array *)

Lemma bind_Done {A B : Type} (c : outcome A) (k : A -> outcome B) (b : B) :
  bind c k = Done b -> exists a, c = Done a /\ k a = Done b.
Proof.
  destruct c as [a| |]; simpl; intros H; try discriminate.
  exists a. split; [reflexivity | exact H].
Qed.

Lemma read_slot_Done its index s :
  read_slot its index = Done s <-> 0 <= index /\ its !! Z.to_nat index = Some s.
Proof.
  unfold read_slot. destruct (Z.ltb_spec index 0) as [Hneg|Hpos].
  - split; [discriminate | lia].
  - destruct (its !! Z.to_nat index) as [s0|]; split.
    + intros [= ->]. split; [lia | reflexivity].
    + intros [_ [= ->]]. reflexivity.
    + discriminate.
    + intros [_ Hs]. discriminate.
Qed.

Lemma read_write_same its index s x :
  read_slot its index = Done s ->
  read_slot (<[Z.to_nat index := x]> its) index = Done x.
Proof.
  intros H. apply read_slot_Done in H as [Hpos Hs].
  apply read_slot_Done. split; [exact Hpos |].
  apply list_lookup_insert_eq. eapply lookup_lt_Some. exact Hs.
Qed.

Lemma read_write_other its index index' x :
  0 <= index -> index <> index' ->
  read_slot (<[Z.to_nat index := x]> its) index' = read_slot its index'.
Proof.
  intros Hpos Hne. unfold read_slot.
  destruct (Z.ltb_spec index' 0) as [Hneg|Hpos']; [reflexivity |].
  rewrite list_lookup_insert_ne; [reflexivity | lia].
Qed.

Lemma stop_at_index key index s r :
  stop_at key index s = Some r -> stop_index r = index.
Proof.
  destruct s as [| |k v]; simpl; try discriminate.
  - intros [= <-]. reflexivity.
  - destruct (String.eqb k key); [intros [= <-]; reflexivity | discriminate].
Qed.

(** ** [ht_hash] on short keys

    As long as every power [a ^ k] that the loop asks for is below [2^53],
    [pow] is exact and nothing overflows: the hash is the polynomial of the
    key reduced modulo [m]. *)

Lemma long_val_in_range z :
  LONG_MIN <= z <= LONG_MAX -> long_val z = Done z.
Proof.
  intros [Hlo Hhi]. unfold long_val.
  destruct (Z.leb_spec LONG_MIN z); [| lia].
  destruct (Z.leb_spec z LONG_MAX); [| lia]. reflexivity.
Qed.

Lemma int_val_in_range z :
  INT_MIN <= z <= INT_MAX -> int_val z = Done z.
Proof.
  intros [Hlo Hhi]. unfold int_val.
  destruct (Z.leb_spec INT_MIN z); [| lia].
  destruct (Z.leb_spec z INT_MAX); [| lia]. reflexivity.
Qed.

Lemma double_of_Z_exact n : 0 <= n < 2 ^ 53 -> double_of_Z n = n.
Proof.
  intros [Hlo Hhi]. unfold double_of_Z.
  destruct (Z.eq_dec n 0) as [->|Hn]; [reflexivity |].
  assert (Hlog : Z.log2 n < 53) by (apply Z.log2_lt_pow2; lia).
  destruct (Z.leb_spec (Z.log2 n - 52) 0); [reflexivity | lia].
Qed.

Lemma pow_exact a k : 0 <= a ^ k < 2 ^ 53 -> pow a k = a ^ k.
Proof.
  intros H. unfold pow. cbv zeta.
  rewrite (Z.abs_eq (a ^ k)) by lia. rewrite double_of_Z_exact by exact H.
  destruct (Z.eq_dec (a ^ k) 0) as [->|Hne]; [reflexivity |].
  rewrite Z.sgn_pos by lia. lia.
Qed.

Lemma char_val_ascii7 c :
  (Z.of_N (N_of_ascii c) <? 128) = true -> 0 <= char_val c <= 127.
Proof.
  intros H. unfold char_val. cbv zeta. rewrite H.
  apply Z.ltb_lt in H. lia.
Qed.

Lemma ht_hash_loop_short cs a m : forall hash,
  0 <= a -> 0 < m <= INT_MAX ->
  ascii7 cs = true ->
  (forall k, (k < String.length cs)%nat -> a ^ Z.of_nat k < 2 ^ 53) ->
  0 <= hash < m ->
  ht_hash_loop cs a m hash = Done ((hash + poly_hash cs a) mod m).
Proof.
  induction cs as [|c cs IH]; intros hash Ha Hm H7 Hexact Hhash.
  - simpl. rewrite Z.add_0_r, Z.mod_small by lia. reflexivity.
  - cbn [ht_hash_loop poly_hash]. cbn [ascii7] in H7.
    apply andb_true_iff in H7 as [Hc H7]. apply char_val_ascii7 in Hc.
    assert (Hk : 0 <= a ^ Z.of_nat (String.length cs) < 2 ^ 53).
    { split; [apply Z.pow_nonneg; exact Ha | apply Hexact; simpl; lia]. }
    rewrite (pow_exact _ _ Hk).
    change (2 ^ 53) with 9007199254740992 in Hk.
    set (p := a ^ Z.of_nat (String.length cs)) in *.
    assert (Hterm : 0 <= p * char_val c <= 9007199254740992 * 127).
    { split; [apply Z.mul_nonneg_nonneg; lia |].
      apply Z.mul_le_mono_nonneg; lia. }
    unfold long_of_double, INT_MAX in *.
    rewrite long_val_in_range by (unfold LONG_MIN, LONG_MAX; lia). simpl.
    rewrite long_val_in_range by (unfold LONG_MIN, LONG_MAX; lia). simpl.
    rewrite long_val_in_range by (unfold LONG_MIN, LONG_MAX; lia). simpl.
    unfold c_rem. destruct (Z.eqb_spec m 0) as [|_]; [lia |]. simpl.
    rewrite Z.rem_mod_nonneg; [| lia | lia].
    rewrite IH; try assumption.
    + f_equal. rewrite Zplus_mod_idemp_l. f_equal. lia.
    + intros k Hlt. apply Hexact. simpl. lia.
    + apply Z.mod_pos_bound. lia.
Qed.

(** On a key of 7-bit characters that is short enough for [pow] to be
    exact, [ht_hash] returns the polynomial of the key modulo [m], a value
    in [[0, m)]. *)
Lemma ht_hash_short_key s a m :
  0 <= a -> 0 < m <= INT_MAX ->
  ascii7 s = true ->
  (forall k, (k < String.length s)%nat -> a ^ Z.of_nat k < 2 ^ 53) ->
  ht_hash s a m = Done (poly_hash s a mod m) /\
  0 <= poly_hash s a mod m < m.
Proof.
  intros Ha Hm H7 Hexact.
  pose proof (Z.mod_pos_bound (poly_hash s a) m ltac:(lia)) as Hrange.
  split; [| exact Hrange].
  unfold ht_hash. rewrite ht_hash_loop_short by (try assumption; lia).
  simpl. apply int_val_in_range. unfold INT_MIN, INT_MAX in *. lia.
Qed.

Lemma ht_hash_empty a m : ht_hash "" a m = Done 0.
Proof. reflexivity. Qed.

(** ** The three loops are the probe walk *)

Lemma ht_insert_loop_probe fuel ht key value : forall index i,
  ht_insert_loop fuel ht key value index i =
  let* r := probe_loop fuel (items ht) (size ht) key index i in
  insert_at ht key value r.
Proof.
  induction fuel as [|fuel IH]; intros index i; simpl; [reflexivity |].
  destruct (read_slot (items ht) index) as [[| |k v]| |]; simpl; try reflexivity.
  - destruct (ht_get_hash key (size ht) i) as [index'| |]; simpl; try reflexivity.
    destruct (int_val (i + 1)) as [i'| |]; simpl; try reflexivity. apply IH.
  - destruct (String.eqb k key); simpl; [reflexivity |].
    destruct (ht_get_hash key (size ht) i) as [index'| |]; simpl; try reflexivity.
    destruct (int_val (i + 1)) as [i'| |]; simpl; try reflexivity. apply IH.
Qed.

Lemma ht_search_loop_probe fuel ht key : forall index i,
  ht_search_loop fuel ht key index i =
  let* r := probe_loop fuel (items ht) (size ht) key index i in
  Done (search_at r).
Proof.
  induction fuel as [|fuel IH]; intros index i; simpl; [reflexivity |].
  destruct (read_slot (items ht) index) as [[| |k v]| |]; simpl; try reflexivity.
  - destruct (ht_get_hash key (size ht) i) as [index'| |]; simpl; try reflexivity.
    destruct (int_val (i + 1)) as [i'| |]; simpl; try reflexivity. apply IH.
  - destruct (String.eqb k key); simpl; [reflexivity |].
    destruct (ht_get_hash key (size ht) i) as [index'| |]; simpl; try reflexivity.
    destruct (int_val (i + 1)) as [i'| |]; simpl; try reflexivity. apply IH.
Qed.

Lemma ht_delete_loop_probe fuel ht key : forall index i,
  ht_delete_loop fuel ht key index i =
  let* r := probe_loop fuel (items ht) (size ht) key index i in
  delete_at ht r.
Proof.
  induction fuel as [|fuel IH]; intros index i; simpl; [reflexivity |].
  destruct (read_slot (items ht) index) as [[| |k v]| |]; simpl; try reflexivity.
  - destruct (ht_get_hash key (size ht) i) as [index'| |]; simpl; try reflexivity.
    destruct (int_val (i + 1)) as [i'| |]; simpl; try reflexivity. apply IH.
  - destruct (String.eqb k key); simpl; [reflexivity |].
    destruct (ht_get_hash key (size ht) i) as [index'| |]; simpl; try reflexivity.
    destruct (int_val (i + 1)) as [i'| |]; simpl; try reflexivity. apply IH.
Qed.

Lemma ht_insert_probe fuel ht key value :
  ht_insert fuel ht key value =
  let* r := probe fuel ht key in insert_at ht key value r.
Proof.
  unfold ht_insert, probe.
  destruct (ht_get_hash key (size ht) 0); simpl; try reflexivity.
  apply ht_insert_loop_probe.
Qed.

Lemma ht_search_probe fuel ht key :
  ht_search fuel ht key = let* r := probe fuel ht key in Done (search_at r).
Proof.
  unfold ht_search, probe.
  destruct (ht_get_hash key (size ht) 0); simpl; try reflexivity.
  apply ht_search_loop_probe.
Qed.

Lemma ht_delete_probe fuel ht key :
  ht_delete fuel ht key = let* r := probe fuel ht key in delete_at ht r.
Proof.
  unfold ht_delete, probe.
  destruct (ht_get_hash key (size ht) 0); simpl; try reflexivity.
  apply ht_delete_loop_probe.
Qed.

Lemma ht_insert_Done fuel ht key value ht' :
  ht_insert fuel ht key value = Done ht' ->
  exists r, probe fuel ht key = Done r /\ insert_at ht key value r = Done ht'.
Proof.
  rewrite ht_insert_probe. intros H.
  apply bind_Done in H as (r & Hr & Hat). eauto.
Qed.

Lemma ht_delete_Done fuel ht key ht' :
  ht_delete fuel ht key = Done ht' ->
  exists r, probe fuel ht key = Done r /\ delete_at ht r = Done ht'.
Proof.
  rewrite ht_delete_probe. intros H.
  apply bind_Done in H as (r & Hr & Hat). eauto.
Qed.

(** ** Properties of the walk *)

(** More fuel does not change a walk that has stopped. *)
Lemma probe_loop_more_fuel fuel its n key : forall index i r,
  probe_loop fuel its n key index i = Done r ->
  probe_loop (S fuel) its n key index i = Done r.
Proof.
  induction fuel as [|fuel IH]; intros index i r H; [discriminate |].
  cbn [probe_loop] in H |- *.
  destruct (read_slot its index) as [cur| |]; simpl in *; try discriminate.
  destruct (stop_at key index cur); [exact H |].
  destruct (ht_get_hash key n i) as [index'| |]; simpl in *; try discriminate.
  destruct (int_val (i + 1)) as [i'| |]; simpl in *; try discriminate.
  apply IH. exact H.
Qed.

Lemma probe_loop_fuel_le fuel fuel' its n key index i r :
  (fuel <= fuel')%nat ->
  probe_loop fuel its n key index i = Done r ->
  probe_loop fuel' its n key index i = Done r.
Proof.
  induction 1 as [|fuel' _ IH]; intros H; [exact H |].
  apply probe_loop_more_fuel, IH, H.
Qed.

Lemma probe_fuel_le fuel fuel' ht key r :
  (fuel <= fuel')%nat ->
  probe fuel ht key = Done r -> probe fuel' ht key = Done r.
Proof.
  unfold probe. intros Hle H.
  destruct (ht_get_hash key (size ht) 0) as [index| |]; simpl in *; try discriminate.
  eapply probe_loop_fuel_le; eassumption.
Qed.

(** The place where the walk stops does not depend on the fuel. *)
Lemma probe_deterministic fuel1 fuel2 ht key r1 r2 :
  probe fuel1 ht key = Done r1 -> probe fuel2 ht key = Done r2 -> r1 = r2.
Proof.
  intros H1 H2.
  apply (probe_fuel_le _ (Nat.max fuel1 fuel2)) in H1; [| lia].
  apply (probe_fuel_le _ (Nat.max fuel1 fuel2)) in H2; [| lia].
  congruence.
Qed.

(** The walk stops on a bucket of the array, at a slot that stops it. *)
Lemma probe_loop_stop_slot fuel its n key : forall index i r,
  probe_loop fuel its n key index i = Done r ->
  exists s, read_slot its (stop_index r) = Done s /\
            stop_at key (stop_index r) s = Some r.
Proof.
  induction fuel as [|fuel IH]; intros index i r H; [discriminate |].
  cbn [probe_loop] in H.
  destruct (read_slot its index) as [cur| |] eqn:Hcur; simpl in H; try discriminate.
  destruct (stop_at key index cur) as [r0|] eqn:Hstop.
  - injection H as <-. rewrite (stop_at_index _ _ _ _ Hstop). eauto.
  - destruct (ht_get_hash key n i) as [index'| |]; simpl in H; try discriminate.
    destruct (int_val (i + 1)) as [i'| |]; simpl in H; try discriminate.
    eapply IH. exact H.
Qed.

Lemma probe_stop_slot fuel ht key r :
  probe fuel ht key = Done r ->
  exists s, read_slot (items ht) (stop_index r) = Done s /\
            stop_at key (stop_index r) s = Some r.
Proof.
  unfold probe. intros H.
  destruct (ht_get_hash key (size ht) 0) as [index| |]; simpl in H; try discriminate.
  eapply probe_loop_stop_slot. exact H.
Qed.

(** The walk only depends on which slots let it pass and on the slot where
    it stops: it carries over to any array that lets it pass at the same
    buckets. *)
Lemma probe_loop_transfer fuel its its' n key : forall index i r s' r',
  probe_loop fuel its n key index i = Done r ->
  (forall idx s, read_slot its idx = Done s -> stop_at key idx s = None ->
     exists s0, read_slot its' idx = Done s0 /\ stop_at key idx s0 = None) ->
  read_slot its' (stop_index r) = Done s' ->
  stop_at key (stop_index r) s' = Some r' ->
  probe_loop fuel its' n key index i = Done r'.
Proof.
  induction fuel as [|fuel IH]; intros index i r s' r' H Hpass Hs' Hr';
    [discriminate |].
  cbn [probe_loop] in H |- *.
  destruct (read_slot its index) as [cur| |] eqn:Hcur; simpl in H; try discriminate.
  destruct (stop_at key index cur) as [r0|] eqn:Hstop.
  - injection H as <-. rewrite (stop_at_index _ _ _ _ Hstop) in Hs', Hr'.
    rewrite Hs'. simpl. rewrite Hr'. reflexivity.
  - destruct (Hpass _ _ Hcur Hstop) as (s0 & Hs0 & Hstop0).
    rewrite Hs0. simpl. rewrite Hstop0.
    destruct (ht_get_hash key n i) as [index'| |]; simpl in *; try discriminate.
    destruct (int_val (i + 1)) as [i'| |]; simpl in *; try discriminate.
    eapply IH; eassumption.
Qed.

Lemma probe_transfer fuel ht ht' key r s' r' :
  size ht' = size ht ->
  probe fuel ht key = Done r ->
  (forall idx s, read_slot (items ht) idx = Done s -> stop_at key idx s = None ->
     exists s0, read_slot (items ht') idx = Done s0 /\ stop_at key idx s0 = None) ->
  read_slot (items ht') (stop_index r) = Done s' ->
  stop_at key (stop_index r) s' = Some r' ->
  probe fuel ht' key = Done r'.
Proof.
  unfold probe. intros -> H Hpass Hs' Hr'.
  destruct (ht_get_hash key (size ht) 0) as [index| |]; simpl in *; try discriminate.
  eapply probe_loop_transfer; eassumption.
Qed.

Lemma stop_at_same_key key index value :
  stop_at key index (Occupied key value) = Some (Hit index value).
Proof. simpl. rewrite String.eqb_refl. reflexivity. Qed.

Lemma stop_at_other_key key k index value :
  k <> key -> stop_at key index (Occupied k value) = None.
Proof.
  intros Hne. simpl. destruct (String.eqb_spec k key); [contradiction | reflexivity].
Qed.

(** A slot that stops the walk for [key] is [NULL] or holds [key]. *)
Lemma stop_at_Some key index s r :
  stop_at key index s = Some r ->
  (s = Empty /\ r = Miss index) \/
  (exists value, s = Occupied key value /\ r = Hit index value).
Proof.
  destruct s as [| |k v]; simpl; try discriminate.
  - intros [= <-]. left. split; reflexivity.
  - destruct (String.eqb_spec k key) as [->|]; [| discriminate].
    intros [= <-]. right. eauto.
Qed.

Lemma int_val_Done z z' : int_val z = Done z' -> z' = z.
Proof.
  unfold int_val. destruct (_ && _); [intros [= <-]; reflexivity | discriminate].
Qed.

(** [ht_insert] writes the new item in the bucket where the walk stopped
    and changes nothing else but [count]. *)
Lemma insert_at_Done ht key value r ht' :
  insert_at ht key value r = Done ht' ->
  items ht' = <[Z.to_nat (stop_index r) := Occupied key value]> (items ht) /\
  size ht' = size ht /\ base_size ht' = base_size ht /\
  count ht' = match r with Hit _ _ => count ht | Miss _ => count ht + 1 end.
Proof.
  destruct r as [p v|p]; simpl.
  - intros [= <-]. repeat split.
  - intros H. apply bind_Done in H as (c & Hc & [= <-]).
    apply int_val_Done in Hc. subst c. repeat split.
Qed.

(** [ht_delete] writes the tombstone in the bucket of the key it found. *)
Lemma delete_at_Done ht r ht' :
  delete_at ht r = Done ht' ->
  size ht' = size ht /\ base_size ht' = base_size ht /\
  match r with
  | Hit index _ =>
      items ht' = <[Z.to_nat index := Tombstone]> (items ht) /\
      count ht' = count ht - 1
  | Miss _ => ht' = ht
  end.
Proof.
  destruct r as [p v|p]; simpl.
  - intros H. apply bind_Done in H as (c & Hc & [= <-]).
    apply int_val_Done in Hc. subst c. repeat split.
  - intros [= <-]. repeat split.
Qed.

(** After [ht_insert] the walk of the inserted key stops on the new item,
    with the fuel the insertion used. *)
Lemma probe_insert_at fuel ht key value r ht' :
  probe fuel ht key = Done r ->
  insert_at ht key value r = Done ht' ->
  probe fuel ht' key = Done (Hit (stop_index r) value).
Proof.
  intros Hr Hat. apply insert_at_Done in Hat as (Hitems & Hsize & _).
  destruct (probe_stop_slot _ _ _ _ Hr) as (s & Hs & Hstop).
  pose proof (proj1 (read_slot_Done _ _ _) Hs) as [Hpos _].
  eapply probe_transfer with (ht := ht) (s' := Occupied key value).
  - exact Hsize.
  - exact Hr.
  - intros idx s0 Hs0 Hpass. exists s0. split; [| exact Hpass].
    rewrite Hitems, read_write_other; [exact Hs0 | exact Hpos |].
    intros <-. congruence.
  - rewrite Hitems. eapply read_write_same. exact Hs.
  - apply stop_at_same_key.
Qed.

(** [ht_insert] keeps every live item where its own walk finds it. *)
Lemma table_ok_insert fuel ht key value ht' :
  table_ok ht -> ht_insert fuel ht key value = Done ht' -> table_ok ht'.
Proof.
  intros Hok Hins.
  apply ht_insert_Done in Hins as (r & Hr & Hat).
  pose proof (probe_insert_at _ _ _ _ _ _ Hr Hat) as Hnew.
  apply insert_at_Done in Hat as (Hitems & Hsize & _).
  destruct (probe_stop_slot _ _ _ _ Hr) as (s & Hs & Hstop).
  pose proof (proj1 (read_slot_Done _ _ _) Hs) as [Hpos _].
  intros index k v Hk. rewrite Hitems in Hk.
  destruct (Z.eq_dec index (stop_index r)) as [->|Hne].
  - rewrite (read_write_same _ _ _ _ Hs) in Hk.
    injection Hk as <- <-. exists fuel. exact Hnew.
  - rewrite read_write_other in Hk by congruence.
    destruct (Hok _ _ _ Hk) as [fuel' Hfound].
    destruct (String.eqb_spec k key) as [->|Hkey].
    + pose proof (probe_deterministic _ _ _ _ _ _ Hr Hfound) as ->.
      simpl in Hne. contradiction.
    + exists fuel'.
      eapply probe_transfer with (ht := ht) (s' := Occupied k v).
      * exact Hsize.
      * exact Hfound.
      * intros idx s0 Hs0 Hpass. rewrite Hitems.
        destruct (Z.eq_dec idx (stop_index r)) as [->|Hidx].
        -- exists (Occupied key value). split.
           ++ eapply read_write_same. exact Hs.
           ++ apply stop_at_other_key. congruence.
        -- exists s0. split; [| exact Hpass].
           rewrite read_write_other by congruence. exact Hs0.
      * simpl. rewrite Hitems, read_write_other by congruence. exact Hk.
      * apply stop_at_same_key.
Qed.

(** [ht_delete] keeps every remaining live item where its own walk finds
    it: the tombstone lets the walks of the other keys pass. *)
Lemma table_ok_delete fuel ht key ht' :
  table_ok ht -> ht_delete fuel ht key = Done ht' -> table_ok ht'.
Proof.
  intros Hok Hdel.
  apply ht_delete_Done in Hdel as (r & Hr & Hat).
  apply delete_at_Done in Hat as (Hsize & _ & Hat).
  destruct r as [p value|p]; [destruct Hat as [Hitems _] | subst ht'; exact Hok].
  destruct (probe_stop_slot _ _ _ _ Hr) as (s & Hs & Hstop). simpl in Hs, Hstop.
  pose proof (proj1 (read_slot_Done _ _ _) Hs) as [Hpos _].
  intros index k v Hk. rewrite Hitems in Hk.
  destruct (Z.eq_dec index p) as [->|Hne].
  - rewrite (read_write_same _ _ _ _ Hs) in Hk. discriminate.
  - rewrite read_write_other in Hk by congruence.
    destruct (Hok _ _ _ Hk) as [fuel' Hfound].
    destruct (String.eqb_spec k key) as [->|Hkey].
    + pose proof (probe_deterministic _ _ _ _ _ _ Hr Hfound) as [= -> _].
      contradiction.
    + exists fuel'.
      eapply probe_transfer with (ht := ht) (s' := Occupied k v).
      * exact Hsize.
      * exact Hfound.
      * intros idx s0 Hs0 Hpass. rewrite Hitems.
        destruct (Z.eq_dec idx p) as [->|Hidx].
        -- exists Tombstone. split; [| reflexivity].
           eapply read_write_same. exact Hs.
        -- exists s0. split; [| exact Hpass].
           rewrite read_write_other by congruence. exact Hs0.
      * simpl. rewrite Hitems, read_write_other by congruence. exact Hk.
      * apply stop_at_same_key.
Qed.

Lemma read_slot_new index s :
  read_slot (items ht_new) index = Done s -> s = Empty.
Proof.
  intros H. apply read_slot_Done in H as [_ H].
  apply lookup_replicate in H as [-> _]. reflexivity.
Qed.

Lemma table_ok_new : table_ok ht_new.
Proof. intros index k v H. apply read_slot_new in H. discriminate. Qed.

Lemma reachable_table_ok ht : reachable ht -> table_ok ht.
Proof.
  induction 1 as [|fuel ht key value ht' _ IH Hins|fuel ht key ht' _ IH Hdel].
  - apply table_ok_new.
  - eapply table_ok_insert; eassumption.
  - eapply table_ok_delete; eassumption.
Qed.

Lemma table_ok_no_dup ht : table_ok ht -> no_dup_keys ht.
Proof.
  intros Hok i j key [v1 H1] [v2 H2].
  destruct (Hok _ _ _ H1) as [f1 Hf1]. destruct (Hok _ _ _ H2) as [f2 Hf2].
  pose proof (probe_deterministic _ _ _ _ _ _ Hf1 Hf2) as [= -> _]. reflexivity.
Qed.

(** ** Walks that never stop *)

Lemma returns_bind_false {A B : Type} (c : outcome A) (k : A -> outcome B) :
  returns c = false -> returns (bind c k) = false.
Proof. destruct c; simpl; [discriminate | reflexivity | reflexivity]. Qed.

(** When [hash_b] is [num_buckets - 1] the step [hash_b + 1] is a multiple
    of [num_buckets]: every attempt gives the bucket [hash_a] again, until
    the product overflows. *)
Lemma int_val_cases z : int_val z = Done z \/ int_val z = Undefined.
Proof. unfold int_val. destruct (_ && _); auto. Qed.

Lemma ht_get_hash_zero_step s n h i :
  ht_hash s HT_PRIME_1 n = Done h ->
  ht_hash s HT_PRIME_2 n = Done (n - 1) ->
  0 <= h < n -> 0 <= i ->
  ht_get_hash s n i = Done h \/ ht_get_hash s n i = Undefined.
Proof.
  intros Ha Hb Hh Hi. unfold ht_get_hash. rewrite Ha, Hb. simpl.
  destruct (int_val_cases (n - 1 + 1)) as [-> | ->]; simpl; auto.
  destruct (int_val_cases (i * (n - 1 + 1))) as [-> | ->]; simpl; auto.
  destruct (int_val_cases (h + i * (n - 1 + 1))) as [-> | ->]; simpl; auto.
  unfold c_rem. destruct (Z.eqb_spec n 0) as [Hn|Hn]; auto.
  left. f_equal.
  replace (n - 1 + 1) with n by lia.
  rewrite Z.rem_mod_nonneg; [| nia | lia].
  rewrite Z_mod_plus_full. apply Z.mod_small. lia.
Qed.

(** A walk whose attempts all give one bucket, with a slot that lets it
    pass, never stops. *)
Lemma probe_loop_stuck its n key index s :
  (forall i, 0 <= i ->
     ht_get_hash key n i = Done index \/ ht_get_hash key n i = Undefined) ->
  read_slot its index = Done s ->
  stop_at key index s = None ->
  forall fuel i, 0 <= i -> returns (probe_loop fuel its n key index i) = false.
Proof.
  intros Hhash Hs Hpass. induction fuel as [|fuel IH]; intros i Hi; [reflexivity |].
  cbn [probe_loop]. rewrite Hs. simpl. rewrite Hpass.
  destruct (Hhash i Hi) as [-> | ->]; simpl; [| reflexivity].
  destruct (int_val_cases (i + 1)) as [-> | ->]; simpl; [| reflexivity].
  apply IH. lia.
Qed.

Lemma probe_stuck ht key h s :
  ht_hash key HT_PRIME_1 (size ht) = Done h ->
  ht_hash key HT_PRIME_2 (size ht) = Done (size ht - 1) ->
  0 <= h < size ht ->
  read_slot (items ht) h = Done s ->
  stop_at key h s = None ->
  forall fuel, returns (probe fuel ht key) = false.
Proof.
  intros Ha Hb Hh Hs Hpass fuel. unfold probe.
  destruct (ht_get_hash_zero_step key (size ht) h 0 Ha Hb Hh) as [-> | ->];
    [lia | | reflexivity].
  simpl. eapply probe_loop_stuck; try eassumption; [| lia].
  intros i Hi. apply ht_get_hash_zero_step; assumption.
Qed.

(** A walk over an array in which every slot lets it pass never stops. *)
Lemma probe_loop_no_stop its n key :
  forallb (slot_passes key) its = true ->
  forall fuel index i, returns (probe_loop fuel its n key index i) = false.
Proof.
  intros Hall. induction fuel as [|fuel IH]; intros index i; [reflexivity |].
  cbn [probe_loop].
  destruct (read_slot its index) as [cur| |] eqn:Hcur; simpl; try reflexivity.
  apply read_slot_Done in Hcur as [_ Hcur].
  assert (Hp : slot_passes key cur = true).
  { rewrite forallb_forall in Hall. apply Hall.
    apply list_elem_of_In. eapply list_elem_of_lookup_2. exact Hcur. }
  assert (Hstop : stop_at key index cur = None).
  { destruct cur as [| |k v]; simpl in *; try discriminate; try reflexivity.
    destruct (String.eqb k key); [discriminate | reflexivity]. }
  rewrite Hstop.
  destruct (ht_get_hash key n i) as [index'| |]; simpl; try reflexivity.
  destruct (int_val (i + 1)) as [i'| |]; simpl; try reflexivity.
  apply IH.
Qed.

Lemma probe_no_stop ht key :
  forallb (slot_passes key) (items ht) = true ->
  forall fuel, returns (probe fuel ht key) = false.
Proof.
  intros Hall fuel. unfold probe.
  destruct (ht_get_hash key (size ht) 0) as [index| |]; simpl; try reflexivity.
  apply probe_loop_no_stop. exact Hall.
Qed.

Lemma ht_insert_no_return fuel ht key value :
  returns (probe fuel ht key) = false ->
  returns (ht_insert fuel ht key value) = false.
Proof. rewrite ht_insert_probe. apply returns_bind_false. Qed.

Lemma ht_search_no_return fuel ht key :
  returns (probe fuel ht key) = false ->
  returns (ht_search fuel ht key) = false.
Proof. rewrite ht_search_probe. apply returns_bind_false. Qed.

Lemma ht_delete_no_return fuel ht key :
  returns (probe fuel ht key) = false ->
  returns (ht_delete fuel ht key) = false.
Proof. rewrite ht_delete_probe. apply returns_bind_false. Qed.

(** ** The example tables *)

Lemma t_i_insert : ht_insert 1 ht_new "i" "1" = Done t_i.
Proof. reflexivity. Qed.

Lemma t_i_reachable : reachable t_i.
Proof. eapply reachable_insert; [apply reachable_new | apply t_i_insert]. Qed.

Lemma t_i_deleted_delete : ht_delete 1 t_i "i" = Done t_i_deleted.
Proof. reflexivity. Qed.

Lemma t_i_deleted_reachable : reachable t_i_deleted.
Proof.
  eapply reachable_delete; [apply t_i_reachable | apply t_i_deleted_delete].
Qed.

(** In [t_i] the walk for "4" never stops: "4" and "i" both hash to bucket
    52 with [hash_b = 52], the bucket holds "i", and the step is 53. *)
Lemma t_i_probe_4 fuel : returns (probe fuel t_i "4") = false.
Proof.
  apply (probe_stuck t_i "4" 52 (Occupied "i" "1")); try reflexivity.
  change (size t_i) with 53. lia.
Qed.

(** In [t_i_deleted] the walk for "i" never stops either: bucket 52 now
    holds the tombstone. *)
Lemma t_i_deleted_probe_i fuel : returns (probe fuel t_i_deleted "i") = false.
Proof.
  apply (probe_stuck t_i_deleted "i" 52 Tombstone); try reflexivity.
  change (size t_i_deleted) with 53. lia.
Qed.

Lemma reachable_insert_all fuel keys value : forall ht ht',
  reachable ht -> ht_insert_all fuel ht keys value = Done ht' -> reachable ht'.
Proof.
  induction keys as [|key keys IH]; intros ht ht' Hr H; simpl in H.
  - injection H as <-. exact Hr.
  - apply bind_Done in H as (ht1 & H1 & H2).
    eapply IH; [| exact H2]. eapply reachable_insert; eassumption.
Qed.

Lemma t_full_insert_all : ht_insert_all 1 ht_new fill_keys "v" = Done t_full.
Proof. vm_compute. reflexivity. Qed.

Lemma t_full_reachable : reachable t_full.
Proof.
  eapply reachable_insert_all; [apply reachable_new | apply t_full_insert_all].
Qed.

(** ** [count] and the number of live items *)

Lemma live_items_le_length its : (live_items its <= length its)%nat.
Proof.
  induction its as [|s its IH]; simpl; [lia |].
  destruct (slot_is_live s); lia.
Qed.

(** Writing [x] over the slot [s] of bucket [i] changes the number of live
    items by what [s] and [x] count for. *)
Lemma live_items_insert its : forall i s x,
  its !! i = Some s ->
  (live_items (<[i := x]> its) + (if slot_is_live s then 1 else 0) =
   live_items its + (if slot_is_live x then 1 else 0))%nat.
Proof.
  induction its as [|s0 its IH]; intros i s x Hs; [discriminate |].
  destruct i as [|i]; simpl in Hs |- *.
  - injection Hs as ->. lia.
  - specialize (IH _ _ x Hs). lia.
Qed.

Lemma count_ok_new : count_ok ht_new.
Proof. split; reflexivity. Qed.

Lemma count_ok_insert fuel ht key value ht' :
  count_ok ht -> ht_insert fuel ht key value = Done ht' -> count_ok ht'.
Proof.
  intros [Hcount Hsize] Hins.
  apply ht_insert_Done in Hins as (r & Hr & Hat).
  apply insert_at_Done in Hat as (Hitems & Hsize' & _ & Hcount').
  destruct (probe_stop_slot _ _ _ _ Hr) as (s & Hs & Hstop).
  apply read_slot_Done in Hs as [_ Hs].
  pose proof (live_items_insert _ _ _ (Occupied key value) Hs) as Hlive.
  split; [| rewrite Hsize', Hitems, length_insert; exact Hsize].
  rewrite Hcount', Hitems.
  destruct r as [p v|p]; simpl in *;
    apply stop_at_Some in Hstop as [[-> [=]] | (old & -> & [=])];
    simpl in Hlive; lia.
Qed.

Lemma count_ok_delete fuel ht key ht' :
  count_ok ht -> ht_delete fuel ht key = Done ht' -> count_ok ht'.
Proof.
  intros [Hcount Hsize] Hdel.
  apply ht_delete_Done in Hdel as (r & Hr & Hat).
  apply delete_at_Done in Hat as (Hsize' & _ & Hat).
  destruct r as [p value|p]; [| subst ht'; split; assumption].
  destruct Hat as [Hitems Hcount'].
  destruct (probe_stop_slot _ _ _ _ Hr) as (s & Hs & Hstop). simpl in Hs, Hstop.
  apply read_slot_Done in Hs as [_ Hs].
  pose proof (live_items_insert _ _ _ Tombstone Hs) as Hlive.
  split; [| rewrite Hsize', Hitems, length_insert; exact Hsize].
  rewrite Hcount', Hitems.
  apply stop_at_Some in Hstop as [[_ [=]] | (old & -> & _)].
  simpl in Hlive. lia.
Qed.

(** Neither [ht_insert] nor [ht_delete] changes the capacity, and [count]
    is the number of live items, at most the capacity. *)
Lemma reachable_size ht : reachable ht -> size ht = 53 /\ base_size ht = 50.
Proof.
  induction 1 as [|fuel ht key value ht' _ IH Hins|fuel ht key ht' _ IH Hdel].
  - split; reflexivity.
  - apply ht_insert_Done in Hins as (r & _ & Hat).
    apply insert_at_Done in Hat as (_ & -> & -> & _). exact IH.
  - apply ht_delete_Done in Hdel as (r & _ & Hat).
    apply delete_at_Done in Hat as (-> & -> & _). exact IH.
Qed.

Lemma reachable_count_ok ht : reachable ht -> count_ok ht.
Proof.
  induction 1 as [|fuel ht key value ht' _ IH Hins|fuel ht key ht' _ IH Hdel].
  - apply count_ok_new.
  - eapply count_ok_insert; eassumption.
  - eapply count_ok_delete; eassumption.
Qed.

Lemma reachable_count_bounds ht : reachable ht -> 0 <= count ht <= size ht.
Proof.
  intros Hr. destruct (reachable_count_ok _ Hr) as [-> ->].
  pose proof (live_items_le_length (items ht)). lia.
Qed.

(** ** What the operations do when they return *)

(** A lookup that follows an insertion of the same key returns the
    inserted value, with the fuel the insertion used. *)
Lemma ht_search_after_insert fuel ht key value ht' :
  ht_insert fuel ht key value = Done ht' ->
  ht_search fuel ht' key = Done (Some value).
Proof.
  intros H. apply ht_insert_Done in H as (r & Hr & Hat).
  rewrite ht_search_probe, (probe_insert_at _ _ _ _ _ _ Hr Hat). reflexivity.
Qed.

(** A second insertion of a key overwrites the slot the first one filled
    and leaves [count] alone. *)
Lemma ht_insert_overwrite fuel ht key v1 v2 ht1 :
  ht_insert fuel ht key v1 = Done ht1 ->
  exists index,
    read_slot (items ht1) index = Done (Occupied key v1) /\
    ht_insert fuel ht1 key v2 = Done (write_slot ht1 index (Occupied key v2)) /\
    count (write_slot ht1 index (Occupied key v2)) = count ht1 /\
    ht_search fuel (write_slot ht1 index (Occupied key v2)) key = Done (Some v2).
Proof.
  intros H. apply ht_insert_Done in H as (r & Hr & Hat).
  pose proof (probe_insert_at _ _ _ _ _ _ Hr Hat) as Hhit.
  apply insert_at_Done in Hat as (Hitems & _).
  exists (stop_index r).
  destruct (probe_stop_slot _ _ _ _ Hr) as (s & Hs & _).
  assert (Hins : ht_insert fuel ht1 key v2 =
                 Done (write_slot ht1 (stop_index r) (Occupied key v2))).
  { rewrite ht_insert_probe, Hhit. reflexivity. }
  repeat split.
  - rewrite Hitems. eapply read_write_same. exact Hs.
  - exact Hins.
  - apply ht_search_after_insert in Hins. exact Hins.
Qed.

(** Deleting a key that a reachable table holds returns, leaves a
    tombstone in its bucket and takes one off [count]; no later lookup of
    the key returns a value. *)
Lemma ht_delete_present ht index key value :
  reachable ht ->
  read_slot (items ht) index = Done (Occupied key value) ->
  exists fuel ht',
    ht_delete fuel ht key = Done ht' /\
    items ht' = <[Z.to_nat index := Tombstone]> (items ht) /\
    count ht' = count ht - 1 /\
    forall fuel' v, ht_search fuel' ht' key <> Done (Some v).
Proof.
  intros Hreach Hk. pose proof (reachable_table_ok _ Hreach) as Hok.
  destruct (Hok _ _ _ Hk) as [fuel Hhit].
  pose proof (reachable_count_bounds _ Hreach) as Hcount.
  destruct (reachable_size _ Hreach) as [Hsize _].
  assert (Hat : delete_at ht (Hit index value) =
                Done (set_count (write_slot ht index Tombstone) (count ht - 1))).
  { simpl. unfold int_val.
    destruct (Z.leb_spec INT_MIN (count ht - 1)); [| unfold INT_MIN in *; lia].
    destruct (Z.leb_spec (count ht - 1) INT_MAX); [| unfold INT_MAX in *; lia].
    reflexivity. }
  exists fuel, (set_count (write_slot ht index Tombstone) (count ht - 1)).
  assert (Hdel : ht_delete fuel ht key =
                 Done (set_count (write_slot ht index Tombstone) (count ht - 1))).
  { rewrite ht_delete_probe, Hhit. exact Hat. }
  repeat split; [exact Hdel |].
  intros fuel' v Hsearch.
  rewrite ht_search_probe in Hsearch.
  apply bind_Done in Hsearch as ([p v'|p] & Hp & [= ->]).
  destruct (probe_stop_slot _ _ _ _ Hp) as (s & Hs & Hstop). simpl in Hs, Hstop.
  apply stop_at_Some in Hstop as [[_ [=]] | (v0 & -> & _)].
  pose proof (proj1 (read_slot_Done _ _ _) Hk) as [Hpos _].
  destruct (Z.eq_dec p index) as [->|Hne].
  - rewrite (read_write_same _ _ _ _ Hk) in Hs. discriminate.
  - rewrite read_write_other in Hs by congruence.
    destruct (Hok _ _ _ Hs) as [f0 Hf0].
    pose proof (probe_deterministic _ _ _ _ _ _ Hhit Hf0) as [= -> _].
    contradiction.
Qed.

(** On a table that satisfies [table_ok], a lookup of a key that the table
    holds returns its value, and a lookup that returns [NULL] means that no
    bucket holds the key. *)
Lemma ht_search_present ht index key value :
  table_ok ht ->
  read_slot (items ht) index = Done (Occupied key value) ->
  exists fuel, ht_search fuel ht key = Done (Some value).
Proof.
  intros Hok Hk. destruct (Hok _ _ _ Hk) as [fuel Hhit].
  exists fuel. rewrite ht_search_probe, Hhit. reflexivity.
Qed.

Lemma ht_search_null_absent fuel ht key index :
  table_ok ht ->
  ht_search fuel ht key = Done None ->
  ~ holds_key ht index key.
Proof.
  intros Hok Hsearch [value Hk].
  destruct (ht_search_present _ _ _ _ Hok Hk) as [fuel' Hfound].
  rewrite ht_search_probe in Hsearch, Hfound.
  apply bind_Done in Hsearch as (r & Hr & Hr').
  apply bind_Done in Hfound as (r0 & Hr0 & Hr0').
  pose proof (probe_deterministic _ _ _ _ _ _ Hr Hr0) as ->. congruence.
Qed.

(** [ht_insert] leaves every tombstone in place: it writes to the bucket
    where its walk stopped, and the walk does not stop at a tombstone. *)
Lemma ht_insert_written_slot fuel ht key value ht' :
  ht_insert fuel ht key value = Done ht' ->
  exists index,
    (read_slot (items ht) index = Done Empty \/
     exists old, read_slot (items ht) index = Done (Occupied key old)) /\
    0 <= index /\
    items ht' = <[Z.to_nat index := Occupied key value]> (items ht).
Proof.
  intros H. apply ht_insert_Done in H as (r & Hr & Hat).
  apply insert_at_Done in Hat as (Hitems & _).
  destruct (probe_stop_slot _ _ _ _ Hr) as (s & Hs & Hstop).
  exists (stop_index r).
  pose proof (proj1 (read_slot_Done _ _ _) Hs) as [Hpos _].
  split; [| split; [exact Hpos | exact Hitems]].
  apply stop_at_Some in Hstop as [[-> _] | (old & -> & _)]; eauto.
Qed.

Lemma ht_insert_keeps_tombstone fuel ht key value ht' index :
  ht_insert fuel ht key value = Done ht' ->
  read_slot (items ht) index = Done Tombstone ->
  read_slot (items ht') index = Done Tombstone.
Proof.
  intros H Ht.
  apply ht_insert_written_slot in H as (p & Hp & Hpos & ->).
  rewrite read_write_other; [exact Ht | exact Hpos |].
  intros ->. destruct Hp as [Hp | [old Hp]]; congruence.
Qed.

(** ** The claims *)

(** C1.  The claim: resize triggers on insert and delete keep the load
    factor in its band, so that [N] inserts of distinct keys leave a
    capacity of at least [N / upper_threshold].  The code: [ht_insert] and
    [ht_delete] never call [ht_resize_up] or [ht_resize_down].  Inserting the
    53 distinct keys of [fill_keys] into a fresh table leaves the capacity at
    53 with [count = 53], a load factor of 100%, and a further insertion of a
    new key never returns. *)
Theorem insert_fills_table_without_resize :
  NoDup fill_keys /\ length fill_keys = 53%nat /\
  ht_insert_all 1 ht_new fill_keys "v" = Done t_full /\
  size t_full = 53 /\ base_size t_full = 50 /\ count t_full = 53 /\
  (70 * size t_full <? 100 * count t_full) = true /\
  forall fuel, returns (ht_insert fuel t_full "z" "v") = false.
Proof.
  split; [apply (bool_decide_unpack _); vm_compute; exact I |].
  split; [reflexivity |].
  split; [apply t_full_insert_all |].
  repeat (split; [vm_compute; reflexivity |]).
  intros fuel. apply ht_insert_no_return, probe_no_stop.
  vm_compute. reflexivity.
Qed.

(** C2.  The claim: the step [hash_b (key) + 1] is never zero modulo a
    prime capacity.  The code: for the key "i" and the capacity 53,
    [hash_b] is 52 and the step 53 is zero modulo 53; every attempt of
    [ht_get_hash] gives bucket 52 (or overflows). *)
Theorem probe_step_zero_modulo_capacity :
  is_prime 53 = true /\
  ht_hash "i" HT_PRIME_2 53 = Done 52 /\
  Z.rem (52 + 1) 53 = 0 /\
  forall attempt : nat,
    ht_get_hash "i" 53 (Z.of_nat attempt) = Done 52 \/
    ht_get_hash "i" 53 (Z.of_nat attempt) = Undefined.
Proof.
  repeat (split; [vm_compute; reflexivity |]).
  intros attempt. apply ht_get_hash_zero_step; try reflexivity; lia.
Qed.

(** C3.  The claim: on every reachable table the probe loops of search,
    insert and delete terminate.  The code: on the reachable table [t_i],
    which has 52 empty buckets, none of the three loops returns for the key
    "4"; on the reachable table [t_full], which has no empty bucket, the
    search loop does not return for the key "z". *)
Theorem probe_loops_do_not_return :
  reachable t_i /\ reachable t_full /\
  read_slot (items t_i) 0 = Done Empty /\
  forall fuel,
    returns (ht_search fuel t_i "4") = false /\
    returns (ht_insert fuel t_i "4" "2") = false /\
    returns (ht_delete fuel t_i "4") = false /\
    returns (ht_search fuel t_full "z") = false.
Proof.
  split; [apply t_i_reachable |]. split; [apply t_full_reachable |].
  split; [reflexivity |]. intros fuel.
  split; [apply ht_search_no_return, t_i_probe_4 |].
  split; [apply ht_insert_no_return, t_i_probe_4 |].
  split; [apply ht_delete_no_return, t_i_probe_4 |].
  apply ht_search_no_return, probe_no_stop. vm_compute. reflexivity.
Qed.

(** C4.  The claim: on every reachable table, insert followed by search of
    the same key returns the inserted value.  The code: on the reachable
    table [t_i] the sequence [ht_insert (ht, "4", "2"); ht_search (ht, "4")]
    returns nothing, because the insertion does not return. *)
Theorem round_trip_does_not_return :
  reachable t_i /\
  forall fuel fuel',
    returns (let* ht' := ht_insert fuel t_i "4" "2" in
             ht_search fuel' ht' "4") = false.
Proof.
  split; [apply t_i_reachable |]. intros fuel fuel'.
  apply returns_bind_false, ht_insert_no_return, t_i_probe_4.
Qed.

(** C5.  In every table reachable from [ht_new] by [ht_insert] and
    [ht_delete] no two buckets hold live items with the same key, and every
    insertion and deletion from such a table gives a table with the same
    property. *)
Theorem reachable_no_dup_keys ht :
  reachable ht ->
  no_dup_keys ht /\
  (forall fuel key value ht',
     ht_insert fuel ht key value = Done ht' -> no_dup_keys ht') /\
  (forall fuel key ht',
     ht_delete fuel ht key = Done ht' -> no_dup_keys ht').
Proof.
  intros Hr. pose proof (reachable_table_ok _ Hr) as Hok.
  split; [apply table_ok_no_dup, Hok |]. split.
  - intros fuel key value ht' H.
    eapply table_ok_no_dup, table_ok_insert; eassumption.
  - intros fuel key ht' H.
    eapply table_ok_no_dup, table_ok_delete; eassumption.
Qed.

Lemma reachable_no_dup_keys_witness :
  read_slot (items t_collide) 44 = Done (Occupied "a" "1") /\
  read_slot (items t_collide) 36 = Done (Occupied "," "2") /\
  reachable t_collide /\
  no_dup_keys t_collide /\
  ht_insert 2 t_collide "," "3" = Done t_collide_overwritten /\
  no_dup_keys t_collide_overwritten /\
  ht_delete 1 t_collide "a" = Done t_collide_deleted /\
  no_dup_keys t_collide_deleted.
Proof.
  assert (Hr : reachable t_collide).
  { apply (reachable_insert 2 t_a "," "2" t_collide); [| reflexivity].
    apply (reachable_insert 1 ht_new "a" "1" t_a reachable_new). reflexivity. }
  split; [reflexivity |]. split; [reflexivity |]. split; [exact Hr |].
  split; [exact (proj1 (reachable_no_dup_keys t_collide Hr)) |].
  split; [reflexivity |].
  split.
  - exact (proj1 (proj2 (reachable_no_dup_keys t_collide Hr))
             2%nat "," "3" t_collide_overwritten eq_refl).
  - split; [reflexivity |].
    exact (proj2 (proj2 (reachable_no_dup_keys t_collide Hr))
             1%nat "a" t_collide_deleted eq_refl).
Defined.

(** C6.  The claim: on every reachable table two insertions of one key
    followed by a search return the second value, with [count] unchanged by
    the second insertion.  The code: on the reachable table [t_i] the
    sequence for the key "4" returns nothing, because the first insertion
    does not return. *)
Theorem overwrite_does_not_return :
  reachable t_i /\
  forall fuel1 fuel2 fuel3,
    returns (let* ht1 := ht_insert fuel1 t_i "4" "a" in
             let* ht2 := ht_insert fuel2 ht1 "4" "b" in
             ht_search fuel3 ht2 "4") = false.
Proof.
  split; [apply t_i_reachable |]. intros fuel1 fuel2 fuel3.
  apply returns_bind_false, ht_insert_no_return, t_i_probe_4.
Qed.

(** C7.  The claim: deleting a key that a reachable table holds leaves a
    tombstone, takes one off [count], and a following search reports
    not-found.  The code: on [t_i], which holds "i" in bucket 52, the
    deletion leaves the tombstone and [count = 0], but the following
    [ht_search (ht, "i")] does not return. *)
Theorem search_after_delete_does_not_return :
  reachable t_i /\
  read_slot (items t_i) 52 = Done (Occupied "i" "1") /\
  ht_delete 1 t_i "i" = Done t_i_deleted /\
  read_slot (items t_i_deleted) 52 = Done Tombstone /\
  count t_i_deleted = count t_i - 1 /\
  forall fuel, returns (ht_search fuel t_i_deleted "i") = false.
Proof.
  split; [apply t_i_reachable |].
  repeat (split; [reflexivity |]).
  intros fuel. apply ht_search_no_return, t_i_deleted_probe_i.
Qed.

(** C8 as amended.  An insertion never turns a tombstone into a live item:
    every bucket that holds the tombstone before an [ht_insert] that
    returns still holds it afterwards, and the bucket the insertion writes
    was [NULL] or held the inserted key. *)
Theorem insert_never_reuses_tombstone fuel ht key value ht' :
  ht_insert fuel ht key value = Done ht' ->
  (forall index, read_slot (items ht) index = Done Tombstone ->
                 read_slot (items ht') index = Done Tombstone) /\
  exists index,
    (read_slot (items ht) index = Done Empty \/
     exists old, read_slot (items ht) index = Done (Occupied key old)) /\
    items ht' = <[Z.to_nat index := Occupied key value]> (items ht).
Proof.
  intros H. split.
  - intros index. eapply ht_insert_keeps_tombstone. exact H.
  - apply ht_insert_written_slot in H as (index & Hslot & _ & Hitems). eauto.
Qed.

Lemma insert_never_reuses_tombstone_witness :
  read_slot (items t_a_deleted) 44 = Done Tombstone /\
  ht_insert 2 t_a_deleted "a" "2" = Done t_a_again /\
  read_slot (items t_a_again) 44 = Done Tombstone.
Proof.
  split; [reflexivity |]. split; [reflexivity |].
  exact (proj1 (insert_never_reuses_tombstone 2 t_a_deleted "a" "2" t_a_again
                  eq_refl) 44 eq_refl).
Defined.

(** C8 as stated fails: no insertion into a reachable table places its
    item in a bucket that holds the tombstone. *)
Lemma no_tombstone_to_occupied :
  ~ exists fuel ht key value ht' index,
      reachable ht /\
      ht_insert fuel ht key value = Done ht' /\
      read_slot (items ht) index = Done Tombstone /\
      read_slot (items ht') index = Done (Occupied key value).
Proof.
  intros (fuel & ht & key & value & ht' & index & _ & Hins & Ht & Ho).
  rewrite (ht_insert_keeps_tombstone _ _ _ _ _ _ Hins Ht) in Ho. discriminate.
Qed.

(** C9.  The claim: [ht_hash] gives a value in [[0, m)] for every string,
    with no overflow in between.  The code: for a key of ten characters the
    first term is [(long) pow (151, 9)], a conversion of a [double] above
    [LONG_MAX], and for a key of nine letters the product
    [(long) pow (151, 8) * s[0]] overflows [long]. *)
Theorem ht_hash_long_key_overflows :
  (LONG_MAX <? 151 ^ 9) = true /\
  long_of_double (pow HT_PRIME_1 9) = Undefined /\
  ht_hash "aaaaaaaaaa" HT_PRIME_1 53 = Undefined /\
  long_val (pow HT_PRIME_1 8 * char_val "a") = Undefined /\
  ht_hash "aaaaaaaaa" HT_PRIME_1 53 = Undefined.
Proof. repeat split; vm_compute; reflexivity. Qed.

(** C10.  The claim: on every reachable table [ht_search] returns [NULL]
    exactly when no bucket holds the key.  The code: no bucket of the
    reachable table [t_i] holds "4", and [ht_search (ht, "4")] does not
    return, so it does not return [NULL]. *)
Theorem search_absent_key_does_not_return :
  reachable t_i /\
  existsb (slot_has_key "4") (items t_i) = false /\
  forall fuel, returns (ht_search fuel t_i "4") = false.
Proof.
  split; [apply t_i_reachable |]. split; [reflexivity |].
  intros fuel. apply ht_search_no_return, t_i_probe_4.
Qed.

(** ** Further properties of the operations *)

Lemma t_a_reachable : reachable t_a.
Proof. exact (reachable_insert 1 ht_new "a" "1" t_a reachable_new eq_refl). Qed.

Lemma t_ab_reachable : reachable t_ab.
Proof. exact (reachable_insert 1 t_a "b" "2" t_ab t_a_reachable eq_refl). Qed.

(** X1.  Whenever [ht_insert] returns, on any table, [ht_search] of the
    same key returns the inserted value, with the same fuel. *)
Theorem insert_then_search fuel ht key value ht' :
  ht_insert fuel ht key value = Done ht' ->
  ht_search fuel ht' key = Done (Some value).
Proof. apply ht_search_after_insert. Qed.

Lemma insert_then_search_witness :
  ht_search 1 t_a "a" = Done (Some "1").
Proof. exact (insert_then_search 1 ht_new "a" "1" t_a eq_refl). Defined.

(** X2.  Whenever a first [ht_insert] of a key returns, a second one
    returns too, writes the bucket that holds the key, leaves [count] and
    the other buckets alone, and [ht_search] returns the second value. *)
Theorem insert_twice_overwrites fuel ht key v1 v2 ht1 :
  ht_insert fuel ht key v1 = Done ht1 ->
  exists index ht2,
    read_slot (items ht1) index = Done (Occupied key v1) /\
    ht_insert fuel ht1 key v2 = Done ht2 /\
    items ht2 = <[Z.to_nat index := Occupied key v2]> (items ht1) /\
    count ht2 = count ht1 /\
    ht_search fuel ht2 key = Done (Some v2).
Proof.
  intros H.
  destruct (ht_insert_overwrite _ _ _ _ v2 _ H) as (index & Hs & Hins & Hc & Hf).
  exists index, (write_slot ht1 index (Occupied key v2)).
  repeat split; assumption.
Qed.

Lemma insert_twice_overwrites_witness :
  exists index ht2,
    read_slot (items t_a) index = Done (Occupied "a" "1") /\
    ht_insert 1 t_a "a" "2" = Done ht2 /\
    items ht2 = <[Z.to_nat index := Occupied "a" "2"]> (items t_a) /\
    count ht2 = count t_a /\
    ht_search 1 ht2 "a" = Done (Some "2").
Proof. exact (insert_twice_overwrites 1 ht_new "a" "1" "2" t_a eq_refl). Defined.

(** X3.  An insertion into a reachable table leaves every item of another
    key in its bucket, and [ht_search] still returns its value. *)
Theorem insert_keeps_other_keys fuel ht key value ht' index k v :
  reachable ht ->
  ht_insert fuel ht key value = Done ht' ->
  k <> key ->
  read_slot (items ht) index = Done (Occupied k v) ->
  read_slot (items ht') index = Done (Occupied k v) /\
  exists fuel', ht_search fuel' ht' k = Done (Some v).
Proof.
  intros Hreach Hins Hne Hk.
  assert (Hk' : read_slot (items ht') index = Done (Occupied k v)).
  { apply ht_insert_written_slot in Hins as (p & Hp & Hpos & ->).
    rewrite read_write_other; [exact Hk | exact Hpos |].
    intros ->. destruct Hp as [Hp | [old Hp]]; congruence. }
  split; [exact Hk' |].
  eapply ht_search_present; [| exact Hk'].
  eapply table_ok_insert; [apply reachable_table_ok, Hreach | exact Hins].
Qed.

Lemma insert_keeps_other_keys_witness :
  read_slot (items t_ab) 44 = Done (Occupied "a" "1") /\
  exists fuel', ht_search fuel' t_ab "a" = Done (Some "1").
Proof.
  refine (insert_keeps_other_keys 1 t_a "b" "2" t_ab 44 "a" "1" _ eq_refl _ eq_refl).
  - exact (reachable_insert 1 ht_new "a" "1" t_a reachable_new eq_refl).
  - discriminate.
Defined.

(** X4.  A deletion from a reachable table leaves every item of another
    key in its bucket, and [ht_search] still returns its value. *)
Theorem delete_keeps_other_keys fuel ht key ht' index k v :
  reachable ht ->
  ht_delete fuel ht key = Done ht' ->
  k <> key ->
  read_slot (items ht) index = Done (Occupied k v) ->
  read_slot (items ht') index = Done (Occupied k v) /\
  exists fuel', ht_search fuel' ht' k = Done (Some v).
Proof.
  intros Hreach Hdel Hne Hk.
  assert (Hk' : read_slot (items ht') index = Done (Occupied k v)).
  { apply ht_delete_Done in Hdel as (r & Hr & Hat).
    apply delete_at_Done in Hat as (_ & _ & Hat).
    destruct r as [p old|p]; [destruct Hat as [-> _] | subst ht'; exact Hk].
    destruct (probe_stop_slot _ _ _ _ Hr) as (s & Hs & Hstop).
    simpl in Hs, Hstop.
    pose proof (proj1 (read_slot_Done _ _ _) Hs) as [Hpos _].
    rewrite read_write_other; [exact Hk | exact Hpos |].
    intros ->. rewrite Hk in Hs. injection Hs as <-.
    rewrite stop_at_other_key in Hstop by exact Hne. discriminate. }
  split; [exact Hk' |].
  eapply ht_search_present; [| exact Hk'].
  eapply table_ok_delete; [apply reachable_table_ok, Hreach | exact Hdel].
Qed.

Lemma delete_keeps_other_keys_witness :
  read_slot (items (result_or ht_new (ht_delete 1 t_ab "b"))) 44 =
    Done (Occupied "a" "1") /\
  exists fuel',
    ht_search fuel' (result_or ht_new (ht_delete 1 t_ab "b")) "a" =
    Done (Some "1").
Proof.
  refine (delete_keeps_other_keys 1 t_ab "b" _ 44 "a" "1" _ eq_refl _ eq_refl).
  - exact (reachable_insert 1 t_a "b" "2" t_ab
             (reachable_insert 1 ht_new "a" "1" t_a reachable_new eq_refl)
             eq_refl).
  - discriminate.
Defined.

(** X5.  Deleting a key that a reachable table holds returns: the bucket
    of the key gets the tombstone, [count] goes down by one, and no later
    [ht_search] of the key returns a value. *)
Theorem delete_of_present_key ht index key value :
  reachable ht ->
  read_slot (items ht) index = Done (Occupied key value) ->
  exists fuel ht',
    ht_delete fuel ht key = Done ht' /\
    items ht' = <[Z.to_nat index := Tombstone]> (items ht) /\
    count ht' = count ht - 1 /\
    forall fuel' v, ht_search fuel' ht' key <> Done (Some v).
Proof. apply ht_delete_present. Qed.

Lemma delete_of_present_key_witness :
  exists fuel ht',
    ht_delete fuel t_a "a" = Done ht' /\
    items ht' = <[Z.to_nat 44 := Tombstone]> (items t_a) /\
    count ht' = count t_a - 1 /\
    forall fuel' v, ht_search fuel' ht' "a" <> Done (Some v).
Proof.
  exact (delete_of_present_key t_a 44 "a" "1"
           (reachable_insert 1 ht_new "a" "1" t_a reachable_new eq_refl)
           eq_refl).
Defined.

(** X6.  Deleting a key for which [ht_search] returns [NULL] returns and
    changes nothing, on any table. *)
Theorem delete_of_absent_key fuel ht key :
  ht_search fuel ht key = Done None ->
  ht_delete fuel ht key = Done ht.
Proof.
  rewrite ht_search_probe, ht_delete_probe. intros H.
  apply bind_Done in H as ([p v|p] & -> & [=]). reflexivity.
Qed.

Lemma delete_of_absent_key_witness :
  ht_delete 1 t_a "b" = Done t_a.
Proof. exact (delete_of_absent_key 1 t_a "b" eq_refl). Defined.

(** X7.  What [ht_search] returns on a reachable table is right: a value
    it returns is the value of an item with that key, and when it returns
    [NULL] no bucket holds the key. *)
Theorem search_result_sound fuel ht key r :
  reachable ht ->
  ht_search fuel ht key = Done r ->
  match r with
  | Some v => exists index, read_slot (items ht) index = Done (Occupied key v)
  | None => forall index, ~ holds_key ht index key
  end.
Proof.
  intros Hreach Hsearch. destruct r as [v|].
  - rewrite ht_search_probe in Hsearch.
    apply bind_Done in Hsearch as ([p v'|p] & Hp & [= ->]).
    destruct (probe_stop_slot _ _ _ _ Hp) as (s & Hs & Hstop).
    simpl in Hs, Hstop.
    apply stop_at_Some in Hstop as [[_ [=]] | (v0 & -> & [= ->])]. eauto.
  - intros index. eapply ht_search_null_absent; [| exact Hsearch].
    apply reachable_table_ok, Hreach.
Qed.

Lemma search_result_sound_witness :
  exists index, read_slot (items t_a) index = Done (Occupied "a" "1").
Proof.
  exact (search_result_sound 1 t_a "a" (Some "1")
           (reachable_insert 1 ht_new "a" "1" t_a reachable_new eq_refl)
           eq_refl).
Defined.

(** X8.  On a reachable table [ht_search] finds every key the table holds:
    for a live item in any bucket, the search of its key returns its
    value. *)
Theorem search_finds_present_key ht index key value :
  reachable ht ->
  read_slot (items ht) index = Done (Occupied key value) ->
  exists fuel, ht_search fuel ht key = Done (Some value).
Proof.
  intros Hreach. apply ht_search_present, reachable_table_ok, Hreach.
Qed.

Lemma search_finds_present_key_witness :
  exists fuel, ht_search fuel t_ab "b" = Done (Some "2").
Proof.
  exact (search_finds_present_key t_ab 45 "b" "2"
           (reachable_insert 1 t_a "b" "2" t_ab
              (reachable_insert 1 ht_new "a" "1" t_a reachable_new eq_refl)
              eq_refl)
           eq_refl).
Defined.

(** X9.  In every reachable table [count] is the number of live items,
    [size] is the length of the bucket array, and [0 <= count <= size]. *)
Theorem reachable_count_is_live_items ht :
  reachable ht ->
  count ht = Z.of_nat (live_items (items ht)) /\
  size ht = Z.of_nat (length (items ht)) /\
  0 <= count ht <= size ht.
Proof.
  intros Hreach. destruct (reachable_count_ok _ Hreach) as [Hc Hs].
  repeat split; try assumption; apply reachable_count_bounds, Hreach.
Qed.

Lemma reachable_count_is_live_items_witness :
  count t_ab = Z.of_nat (live_items (items t_ab)) /\
  size t_ab = Z.of_nat (length (items t_ab)) /\
  0 <= count t_ab <= size t_ab.
Proof.
  exact (reachable_count_is_live_items t_ab
           (reachable_insert 1 t_a "b" "2" t_ab
              (reachable_insert 1 ht_new "a" "1" t_a reachable_new eq_refl)
              eq_refl)).
Defined.

(** X10.  [ht_insert] never resizes: when it returns, on any table, [size],
    [base_size] and the length of the bucket array are what they were. *)
Theorem insert_keeps_capacity fuel ht key value ht' :
  ht_insert fuel ht key value = Done ht' ->
  size ht' = size ht /\ base_size ht' = base_size ht /\
  length (items ht') = length (items ht).
Proof.
  intros H. apply ht_insert_Done in H as (r & _ & Hat).
  apply insert_at_Done in Hat as (-> & -> & -> & _).
  rewrite length_insert. repeat split.
Qed.

Lemma insert_keeps_capacity_witness :
  size t_ab = size t_a /\ base_size t_ab = base_size t_a /\
  length (items t_ab) = length (items t_a).
Proof. exact (insert_keeps_capacity 1 t_a "b" "2" t_ab eq_refl). Defined.

(** X11.  [ht_delete] never resizes either. *)
Theorem delete_keeps_capacity fuel ht key ht' :
  ht_delete fuel ht key = Done ht' ->
  size ht' = size ht /\ base_size ht' = base_size ht /\
  length (items ht') = length (items ht).
Proof.
  intros H. apply ht_delete_Done in H as (r & _ & Hat).
  apply delete_at_Done in Hat as (-> & -> & Hat).
  destruct r as [p v|p]; [destruct Hat as [-> _] | subst ht'].
  - rewrite length_insert. repeat split.
  - repeat split.
Qed.

Lemma delete_keeps_capacity_witness :
  size t_a_deleted = size t_a /\ base_size t_a_deleted = base_size t_a /\
  length (items t_a_deleted) = length (items t_a).
Proof. exact (delete_keeps_capacity 1 t_a "a" t_a_deleted eq_refl). Defined.

Lemma empty_items_insert its : forall i s x,
  its !! i = Some s ->
  (empty_items (<[i := x]> its) + (if slot_is_empty s then 1 else 0) =
   empty_items its + (if slot_is_empty x then 1 else 0))%nat.
Proof.
  induction its as [|s0 its IH]; intros i s x Hs; [discriminate |].
  destruct i as [|i]; simpl in Hs |- *.
  - injection Hs as ->. lia.
  - specialize (IH _ _ x Hs). lia.
Qed.

(** X12.  When [ht_insert] returns, the number of [NULL] buckets goes down
    by what [count] goes up: by one for a new key, one for which
    [ht_search] returned [NULL] before the insertion, and by nothing for an
    overwrite, where [ht_search] returned a value. *)
Theorem insert_consumes_empty_bucket fuel ht key value ht' :
  ht_insert fuel ht key value = Done ht' ->
  Z.of_nat (empty_items (items ht)) - Z.of_nat (empty_items (items ht')) =
    count ht' - count ht /\
  ((ht_search fuel ht key = Done None /\ count ht' = count ht + 1) \/
   (exists old, ht_search fuel ht key = Done (Some old) /\
                count ht' = count ht)).
Proof.
  intros H. apply ht_insert_Done in H as (r & Hr & Hat).
  apply insert_at_Done in Hat as (Hitems & _ & _ & Hcount).
  destruct (probe_stop_slot _ _ _ _ Hr) as (s & Hs & Hstop).
  apply read_slot_Done in Hs as [_ Hs].
  pose proof (empty_items_insert _ _ _ (Occupied key value) Hs) as He.
  rewrite ht_search_probe, Hr, Hitems, Hcount. cbn [bind search_at].
  destruct r as [p v|p]; simpl in *;
    apply stop_at_Some in Hstop as [[-> [=]] | (old & -> & [=])];
    simpl in He.
  - split; [lia |]. right. exists v. split; reflexivity.
  - split; [lia |]. left. split; reflexivity.
Qed.

Lemma insert_consumes_empty_bucket_witness :
  Z.of_nat (empty_items (items t_collide)) -
    Z.of_nat (empty_items (items t_collide_overwritten)) =
    count t_collide_overwritten - count t_collide /\
  ((ht_search 2 t_collide "," = Done None /\
    count t_collide_overwritten = count t_collide + 1) \/
   (exists old, ht_search 2 t_collide "," = Done (Some old) /\
                count t_collide_overwritten = count t_collide)).
Proof.
  exact (insert_consumes_empty_bucket 2 t_collide "," "3"
           t_collide_overwritten eq_refl).
Defined.

(** X13.  A deletion never gives a bucket back: the number of [NULL]
    buckets is the same after [ht_delete], and [count] does not grow. *)
Theorem delete_frees_no_bucket fuel ht key ht' :
  ht_delete fuel ht key = Done ht' ->
  empty_items (items ht') = empty_items (items ht) /\
  count ht' <= count ht.
Proof.
  intros H. apply ht_delete_Done in H as (r & Hr & Hat).
  apply delete_at_Done in Hat as (_ & _ & Hat).
  destruct r as [p v|p]; [destruct Hat as [-> ->] | subst ht'; split; lia].
  destruct (probe_stop_slot _ _ _ _ Hr) as (s & Hs & Hstop). simpl in Hs, Hstop.
  apply read_slot_Done in Hs as [_ Hs].
  pose proof (empty_items_insert _ _ _ Tombstone Hs) as He.
  apply stop_at_Some in Hstop as [[_ [=]] | (old & -> & _)].
  simpl in He. split; lia.
Qed.

Lemma delete_frees_no_bucket_witness :
  empty_items (items t_a_deleted) = empty_items (items t_a) /\
  count t_a_deleted <= count t_a.
Proof. exact (delete_frees_no_bucket 1 t_a "a" t_a_deleted eq_refl). Defined.

(** X14.  On a reachable table the three operations walk the same buckets:
    with a given fuel, [ht_insert] and [ht_delete] of a key return exactly
    when [ht_search] of the key returns. *)
Theorem operations_return_together fuel ht key value :
  reachable ht ->
  returns (ht_insert fuel ht key value) = returns (ht_search fuel ht key) /\
  returns (ht_delete fuel ht key) = returns (ht_search fuel ht key).
Proof.
  intros Hreach.
  pose proof (reachable_count_bounds _ Hreach) as Hcount.
  destruct (reachable_size _ Hreach) as [Hsize _]. rewrite Hsize in Hcount.
  rewrite ht_insert_probe, ht_search_probe, ht_delete_probe.
  destruct (probe fuel ht key) as [[p v|p]| |]; simpl; try (split; reflexivity).
  - rewrite int_val_in_range by (unfold INT_MIN, INT_MAX; lia).
    split; reflexivity.
  - rewrite int_val_in_range by (unfold INT_MIN, INT_MAX; lia).
    split; reflexivity.
Qed.

Lemma operations_return_together_witness :
  returns (ht_insert 7 t_i "4" "2") = returns (ht_search 7 t_i "4") /\
  returns (ht_delete 7 t_i "4") = returns (ht_search 7 t_i "4").
Proof.
  exact (operations_return_together 7 t_i "4" "2"
           (reachable_insert 1 ht_new "i" "1" t_i reachable_new eq_refl)).
Defined.

(** ** The range of the hashes *)

Lemma double_of_Z_nonneg n : 0 <= n -> 0 <= double_of_Z n.
Proof.
  intros Hn. unfold double_of_Z. cbv zeta.
  destruct (Z.leb_spec (Z.log2 n - 52) 0); [exact Hn |].
  apply Z.shiftl_nonneg.
  assert (Hq : 0 <= Z.shiftr n (Z.log2 n - 52)) by (apply Z.shiftr_nonneg; exact Hn).
  repeat match goal with |- context [if ?b then _ else _] => destruct b end; lia.
Qed.

Lemma pow_nonneg a k : 0 <= a -> 0 <= pow a k.
Proof.
  intros Ha. unfold pow. cbv zeta.
  assert (Hp : 0 <= a ^ k) by (apply Z.pow_nonneg; exact Ha).
  apply Z.mul_nonneg_nonneg.
  - apply Z.sgn_nonneg. exact Hp.
  - apply double_of_Z_nonneg. lia.
Qed.

Lemma long_val_Done z z' : long_val z = Done z' -> z' = z.
Proof.
  unfold long_val. destruct (_ && _); [intros [= <-]; reflexivity | discriminate].
Qed.

Lemma ht_hash_loop_in_range cs a m : forall hash h,
  ascii7 cs = true -> 0 <= a -> 0 < m ->
  0 <= hash < m ->
  ht_hash_loop cs a m hash = Done h ->
  0 <= h < m.
Proof.
  induction cs as [|c cs IH]; intros hash h H7 Ha Hm Hhash H.
  - injection H as <-. exact Hhash.
  - cbn [ht_hash_loop] in H. cbn [ascii7] in H7.
    apply andb_true_iff in H7 as [Hc H7]. apply char_val_ascii7 in Hc.
    apply bind_Done in H as (p & Hp & H).
    apply bind_Done in H as (term & Hterm & H).
    apply bind_Done in H as (hash1 & Hhash1 & H).
    apply bind_Done in H as (hash2 & Hhash2 & H).
    apply long_val_Done in Hp, Hterm, Hhash1. subst p term hash1.
    pose proof (pow_nonneg a (Z.of_nat (String.length cs)) Ha) as Hpow.
    unfold c_rem in Hhash2. destruct (Z.eqb_spec m 0); [discriminate |].
    injection Hhash2 as <-.
    eapply IH; [exact H7 | exact Ha | exact Hm | | exact H].
    rewrite Z.rem_mod_nonneg; [apply Z.mod_pos_bound; lia | nia | lia].
Qed.

Lemma ht_hash_range s a m h :
  ascii7 s = true -> 0 <= a -> 0 < m ->
  ht_hash s a m = Done h ->
  0 <= h < m.
Proof.
  intros H7 Ha Hm H. unfold ht_hash in H.
  apply bind_Done in H as (hash & Hloop & Hint).
  apply int_val_Done in Hint. subst h.
  eapply ht_hash_loop_in_range; try eassumption. lia.
Qed.

Lemma ht_get_hash_range s n i index :
  ascii7 s = true -> 0 < n -> 0 <= i ->
  ht_get_hash s n i = Done index ->
  0 <= index < n.
Proof.
  intros H7 Hn Hi H. unfold ht_get_hash in H.
  apply bind_Done in H as (ha & Ha & H).
  apply bind_Done in H as (hb & Hb & H).
  apply bind_Done in H as (step & Hstep & H).
  apply bind_Done in H as (prod & Hprod & H).
  apply bind_Done in H as (sum & Hsum & H).
  apply int_val_Done in Hstep, Hprod, Hsum. subst step prod sum.
  apply ht_hash_range in Ha; [| assumption | unfold HT_PRIME_1; lia | lia].
  apply ht_hash_range in Hb; [| assumption | unfold HT_PRIME_2; lia | lia].
  unfold c_rem in H. destruct (Z.eqb_spec n 0); [discriminate |].
  injection H as <-.
  rewrite Z.rem_mod_nonneg; [apply Z.mod_pos_bound; lia | nia | lia].
Qed.

(** X15.  For a key of 7-bit characters, a non-negative multiplier and a
    positive modulus, a hash that [ht_hash] returns lies in [[0, m)]. *)
Theorem ht_hash_in_range s a m h :
  ascii7 s = true -> 0 <= a -> 0 < m ->
  ht_hash s a m = Done h ->
  0 <= h < m.
Proof. apply ht_hash_range. Qed.

Lemma ht_hash_in_range_witness : 0 <= 50 < 53.
Proof.
  exact (ht_hash_in_range "hello" 151 53 50 eq_refl ltac:(lia) ltac:(lia) eq_refl).
Defined.

(** X16.  On a key of 7-bit characters that is short enough for every
    power [a ^ k] the loop asks for to be below [2^53], [ht_hash] returns,
    and what it returns is the base-[a] polynomial of the character codes
    reduced modulo [m]. *)
Theorem ht_hash_is_polynomial_on_short_keys s a m :
  0 <= a -> 0 < m <= INT_MAX ->
  ascii7 s = true ->
  (forall k, (k < String.length s)%nat -> a ^ Z.of_nat k < 2 ^ 53) ->
  ht_hash s a m = Done (poly_hash s a mod m).
Proof.
  intros Ha Hm H7 Hexact.
  apply (ht_hash_short_key s a m Ha Hm H7 Hexact).
Qed.

Lemma ht_hash_is_polynomial_on_short_keys_witness :
  ht_hash "ab" 151 53 = Done (poly_hash "ab" 151 mod 53).
Proof.
  refine (ht_hash_is_polynomial_on_short_keys "ab" 151 53 _ _ eq_refl _).
  - lia.
  - unfold INT_MAX. lia.
  - intros k Hk. simpl in Hk.
    destruct k as [|[|k]]; [reflexivity | reflexivity | lia].
Defined.

(** X17.  For a key of 7-bit characters, a bucket index that [ht_get_hash]
    returns for an attempt [i >= 0] is an index of the bucket array: it
    lies in [[0, num_buckets)]. *)
Theorem ht_get_hash_in_range s n i index :
  ascii7 s = true -> 0 < n -> 0 <= i ->
  ht_get_hash s n i = Done index ->
  0 <= index < n.
Proof. apply ht_get_hash_range. Qed.

Lemma ht_get_hash_in_range_witness : 0 <= 36 < 53.
Proof.
  exact (ht_get_hash_in_range "a" 53 1 36 eq_refl ltac:(lia) ltac:(lia) eq_refl).
Defined.

(** ** When the walk is sure to stop *)

(** Without overflow, attempt [i] looks at bucket [probe_index ha hb n i]. *)
Lemma ht_get_hash_formula s n i ha hb :
  ht_hash s HT_PRIME_1 n = Done ha ->
  ht_hash s HT_PRIME_2 n = Done hb ->
  0 <= ha -> 0 <= hb -> hb + 1 <= INT_MAX -> 0 <= i -> 0 < n ->
  ha + i * (hb + 1) <= INT_MAX ->
  ht_get_hash s n i = Done (probe_index ha hb n i).
Proof.
  intros Ha Hb Hha Hhb Hstep Hi Hn Hsum. unfold ht_get_hash, probe_index.
  rewrite Ha, Hb. simpl.
  rewrite int_val_in_range by (unfold INT_MIN, INT_MAX in *; lia). simpl.
  rewrite int_val_in_range by (unfold INT_MIN, INT_MAX in *; nia). simpl.
  rewrite int_val_in_range by (unfold INT_MIN, INT_MAX in *; nia). simpl.
  unfold c_rem. destruct (Z.eqb_spec n 0); [lia |].
  rewrite Z.rem_mod_nonneg; [reflexivity | nia | lia].
Qed.

(** If bucket [probe_index ha hb n i0] is [NULL], the walk stops at attempt
    [i0] at the latest. *)
Lemma probe_loop_reaches its n key ha hb i0 :
  (forall k, 0 <= k <= i0 ->
     ht_get_hash key n k = Done (probe_index ha hb n k)) ->
  (forall idx, 0 <= idx < n -> exists s, read_slot its idx = Done s) ->
  0 < n -> i0 + 1 <= INT_MAX ->
  read_slot its (probe_index ha hb n i0) = Done Empty ->
  forall d j, 0 <= j -> j + Z.of_nat d = i0 ->
    returns (probe_loop (S d) its n key (probe_index ha hb n j) (j + 1)) = true.
Proof.
  intros Hhash Hread Hn Hmax Hempty.
  induction d as [|d IH]; intros j Hj Hd.
  - replace j with i0 by lia. cbn [probe_loop]. rewrite Hempty. reflexivity.
  - cbn [probe_loop].
    destruct (Hread (probe_index ha hb n j)) as [s Hs].
    { apply Z.mod_pos_bound. exact Hn. }
    rewrite Hs. simpl.
    destruct (stop_at key (probe_index ha hb n j) s); [reflexivity |].
    rewrite Hhash by lia. simpl.
    rewrite int_val_in_range by (unfold INT_MIN, INT_MAX in *; lia). simpl.
    apply IH; lia.
Qed.

(** With a step coprime to the number of buckets the attempts below [n]
    reach every bucket. *)
Lemma probe_index_reaches ha hb n e :
  0 < n -> 0 <= e < n -> Z.gcd (hb + 1) n = 1 ->
  exists i0, 0 <= i0 < n /\ probe_index ha hb n i0 = e.
Proof.
  intros Hn He Hgcd.
  destruct (Z.gcd_bezout _ _ _ Hgcd) as (u & v & Huv).
  exists (((e - ha) * u) mod n). split; [apply Z.mod_pos_bound; exact Hn |].
  unfold probe_index.
  rewrite Z.add_mod, Z.mul_mod_idemp_l, <- Z.add_mod by lia.
  assert (Hu : u * (hb + 1) = 1 - v * n) by lia.
  replace (ha + (e - ha) * u * (hb + 1)) with (ha + (e - ha) * (u * (hb + 1)))
    by ring.
  rewrite Hu.
  replace (ha + (e - ha) * (1 - v * n)) with (e + (- (e - ha) * v) * n) by ring.
  rewrite Z_mod_plus_full. apply Z.mod_small. exact He.
Qed.

Lemma probe_returns_coprime_step ht key ha hb e :
  size ht = Z.of_nat (length (items ht)) ->
  size ht * size ht <= INT_MAX ->
  ht_hash key HT_PRIME_1 (size ht) = Done ha ->
  ht_hash key HT_PRIME_2 (size ht) = Done hb ->
  0 <= ha < size ht -> 0 <= hb < size ht ->
  Z.gcd (hb + 1) (size ht) = 1 ->
  read_slot (items ht) e = Done Empty ->
  returns (probe (Z.to_nat (size ht)) ht key) = true.
Proof.
  intros Hlen Hsq Ha Hb Hha Hhb Hgcd Hempty.
  assert (Hn : 0 < size ht) by lia.
  assert (He : 0 <= e < size ht).
  { apply read_slot_Done in Hempty as [Hpos Hs].
    apply lookup_lt_Some in Hs. lia. }
  destruct (probe_index_reaches ha hb (size ht) e Hn He Hgcd) as (i0 & Hi0 & Hidx).
  assert (Hformula : forall k, 0 <= k <= i0 ->
            ht_get_hash key (size ht) k = Done (probe_index ha hb (size ht) k)).
  { intros k Hk. apply ht_get_hash_formula; try assumption;
      unfold INT_MAX in *; nia. }
  assert (Hloop : returns (probe_loop (S (Z.to_nat i0)) (items ht) (size ht) key
                             (probe_index ha hb (size ht) 0) (0 + 1)) = true).
  { apply (probe_loop_reaches (items ht) (size ht) key ha hb i0); try assumption.
    - intros idx Hidx'. destruct (lookup_lt_is_Some_2 (items ht) (Z.to_nat idx))
        as [s Hs]; [lia |].
      exists s. apply read_slot_Done. split; [lia | exact Hs].
    - unfold INT_MAX in *. nia.
    - rewrite Hidx. exact Hempty.
    - lia.
    - lia. }
  unfold probe. rewrite Hformula by lia. simpl.
  destruct (probe_loop (S (Z.to_nat i0)) (items ht) (size ht) key
              (probe_index ha hb (size ht) 0) (0 + 1)) as [r| |] eqn:Hr;
    try discriminate.
  erewrite probe_loop_fuel_le; [reflexivity | | exact Hr]. lia.
Qed.

Lemma coprime_below_53 s : 1 <= s < 53 -> Z.gcd s 53 = 1.
Proof.
  intros Hs.
  assert (Hall : forallb (fun k => Z.gcd (Z.of_nat k) 53 =? 1) (seq 1 52) = true)
    by (vm_compute; reflexivity).
  rewrite forallb_forall in Hall.
  specialize (Hall (Z.to_nat s)).
  rewrite Z2Nat.id in Hall by lia. apply Z.eqb_eq, Hall.
  apply in_seq. lia.
Qed.

(** X18.  On a reachable table that has a [NULL] bucket, the three
    operations return for every key of 7-bit characters whose two hashes
    are defined and whose second hash is not 52: the step is then coprime
    to the 53 buckets and 53 probes reach every bucket. *)
Theorem operations_return_when_step_nonzero ht key value ha hb e :
  reachable ht ->
  ascii7 key = true ->
  ht_hash key HT_PRIME_1 53 = Done ha ->
  ht_hash key HT_PRIME_2 53 = Done hb ->
  hb <> 52 ->
  read_slot (items ht) e = Done Empty ->
  returns (ht_search 53 ht key) = true /\
  returns (ht_insert 53 ht key value) = true /\
  returns (ht_delete 53 ht key) = true.
Proof.
  intros Hreach H7 Ha Hb Hne Hempty.
  destruct (reachable_size _ Hreach) as [Hsize _].
  destruct (reachable_count_ok _ Hreach) as [_ Hlen].
  pose proof (reachable_count_bounds _ Hreach) as Hcount. rewrite Hsize in Hcount.
  assert (Hha : 0 <= ha < 53).
  { apply (ht_hash_range key HT_PRIME_1 53 ha H7); [| lia | exact Ha].
    unfold HT_PRIME_1. lia. }
  assert (Hhb : 0 <= hb < 53).
  { apply (ht_hash_range key HT_PRIME_2 53 hb H7); [| lia | exact Hb].
    unfold HT_PRIME_2. lia. }
  assert (Hp : returns (probe 53 ht key) = true).
  { change 53%nat with (Z.to_nat 53). rewrite <- Hsize.
    apply (probe_returns_coprime_step ht key ha hb e); rewrite ?Hsize;
      try assumption.
    - rewrite <- Hsize. exact Hlen.
    - unfold INT_MAX. lia.
    - apply coprime_below_53. lia. }
  rewrite ht_search_probe, ht_insert_probe, ht_delete_probe.
  destruct (probe 53 ht key) as [[p v|p]| |]; try discriminate; simpl.
  - rewrite int_val_in_range by (unfold INT_MIN, INT_MAX; lia).
    repeat split.
  - rewrite int_val_in_range by (unfold INT_MIN, INT_MAX; lia).
    repeat split.
Qed.

Lemma operations_return_when_step_nonzero_witness :
  returns (ht_search 53 t_i "a") = true /\
  returns (ht_insert 53 t_i "a" "1") = true /\
  returns (ht_delete 53 t_i "a") = true.
Proof.
  refine (operations_return_when_step_nonzero t_i "a" "1" 44 44 0
            _ eq_refl eq_refl eq_refl _ eq_refl).
  - exact (reachable_insert 1 ht_new "i" "1" t_i reachable_new eq_refl).
  - discriminate.
Defined.

(** ** A fresh table *)

Lemma read_slot_new_sized base index :
  0 <= index < next_prime base ->
  read_slot (items (ht_new_sized base)) index = Done Empty.
Proof.
  intros H. apply read_slot_Done. split; [lia |].
  apply lookup_replicate_2. lia.
Qed.

(** X19.  On a table fresh from [ht_new_sized], for a key of 7-bit
    characters whose first bucket index is defined: [ht_search] returns
    [NULL], [ht_delete] changes nothing, and [ht_insert] puts the item in
    the first bucket of the key, with [count = 1]; one probe each. *)
Theorem fresh_table_operations base key value index :
  ascii7 key = true ->
  0 < next_prime base ->
  ht_get_hash key (next_prime base) 0 = Done index ->
  ht_search 1 (ht_new_sized base) key = Done None /\
  ht_delete 1 (ht_new_sized base) key = Done (ht_new_sized base) /\
  exists ht',
    ht_insert 1 (ht_new_sized base) key value = Done ht' /\
    count ht' = 1 /\
    items ht' = <[Z.to_nat index := Occupied key value]>
                  (items (ht_new_sized base)).
Proof.
  intros H7 Hn Hidx.
  pose proof (ht_get_hash_range _ _ _ _ H7 Hn (Z.le_refl 0) Hidx) as Hrange.
  pose proof (read_slot_new_sized base index Hrange) as Hread.
  unfold ht_search, ht_delete, ht_insert.
  change (size (ht_new_sized base)) with (next_prime base).
  rewrite Hidx. cbn [bind ht_search_loop ht_delete_loop ht_insert_loop].
  rewrite Hread. cbn [bind].
  split; [reflexivity |]. split; [reflexivity |].
  eexists. split; [reflexivity |]. split; reflexivity.
Qed.

Lemma fresh_table_operations_witness :
  ht_search 1 (ht_new_sized 50) "a" = Done None /\
  ht_delete 1 (ht_new_sized 50) "a" = Done (ht_new_sized 50) /\
  exists ht',
    ht_insert 1 (ht_new_sized 50) "a" "1" = Done ht' /\
    count ht' = 1 /\
    items ht' = <[Z.to_nat 44 := Occupied "a" "1"]> (items (ht_new_sized 50)).
Proof.
  exact (fresh_table_operations 50 "a" "1" 44 eq_refl eq_refl eq_refl).
Defined.

(** ** Teardown *)

(** X20.  [ht_del_hash_table] returns exactly when no bucket holds the
    tombstone: it hands every item that is not [NULL] to [ht_del_item],
    the static [HT_DELETED_ITEM] included, and freeing that one is
    undefined. *)
Theorem teardown_returns_iff_no_tombstone ht :
  returns (ht_del_hash_table ht) =
  forallb (fun s => negb (slot_is_tombstone s)) (items ht).
Proof.
  unfold ht_del_hash_table.
  induction (items ht) as [|s its IH]; [reflexivity |].
  destruct s as [| |k v]; simpl; try exact IH. reflexivity.
Qed.

Lemma ht_del_hash_table_loop_tombstone its : forall i,
  its !! i = Some Tombstone -> ht_del_hash_table_loop its = Undefined.
Proof.
  induction its as [|s its IH]; intros i Hi; [discriminate |].
  destruct i as [|i]; simpl in Hi.
  - injection Hi as ->. reflexivity.
  - destruct s as [| |k v]; simpl; try reflexivity; eapply IH; exact Hi.
Qed.

(** X21.  After [ht_delete] has removed a key, on any table, tearing the
    table down with [ht_del_hash_table] is undefined. *)
Theorem teardown_undefined_after_delete fuel ht key v ht' :
  ht_search fuel ht key = Done (Some v) ->
  ht_delete fuel ht key = Done ht' ->
  ht_del_hash_table ht' = Undefined.
Proof.
  rewrite ht_search_probe, ht_delete_probe. intros Hs Hd.
  apply bind_Done in Hs as ([p v'|p] & Hp & [= ->]).
  rewrite Hp in Hd. cbn [bind] in Hd.
  apply delete_at_Done in Hd as (_ & _ & Hitems & _).
  destruct (probe_stop_slot _ _ _ _ Hp) as (s & Hslot & _). simpl in Hslot.
  unfold ht_del_hash_table.
  apply (ht_del_hash_table_loop_tombstone _ (Z.to_nat p)).
  pose proof (read_write_same _ _ _ Tombstone Hslot) as Hw.
  apply read_slot_Done in Hw as [_ Hw]. rewrite Hitems. exact Hw.
Qed.

Lemma teardown_undefined_after_delete_witness :
  ht_del_hash_table t_a_deleted = Undefined.
Proof.
  exact (teardown_undefined_after_delete 1 t_a "a" "1" t_a_deleted eq_refl eq_refl).
Defined.

(** ** [ht_resize] *)

Lemma ht_insert_has_item fuel ht key value ht' :
  ht_insert fuel ht key value = Done ht' -> has_item ht' key value.
Proof.
  intros H. apply ht_insert_written_slot in H as (p & Hp & _ & Hitems).
  exists p. rewrite Hitems.
  destruct Hp as [Hp | [old Hp]]; eapply read_write_same; exact Hp.
Qed.

Lemma ht_insert_other_item fuel ht key value ht' k v :
  ht_insert fuel ht key value = Done ht' ->
  k <> key -> has_item ht k v -> has_item ht' k v.
Proof.
  intros H Hne [index Hk].
  apply ht_insert_written_slot in H as (p & Hp & Hpos & Hitems).
  exists index. rewrite Hitems, read_write_other; [exact Hk | exact Hpos |].
  intros ->. destruct Hp as [Hp | [old Hp]]; congruence.
Qed.

Lemma ht_insert_item_origin fuel ht key value ht' k v :
  ht_insert fuel ht key value = Done ht' ->
  has_item ht' k v -> (k = key /\ v = value) \/ has_item ht k v.
Proof.
  intros H [index Hk].
  apply ht_insert_written_slot in H as (p & Hp & Hpos & Hitems).
  rewrite Hitems in Hk.
  destruct (Z.eq_dec index p) as [->|Hne].
  - left. destruct Hp as [Hp | [old Hp]];
      rewrite (read_write_same _ _ _ _ Hp) in Hk; injection Hk as <- <-;
      split; reflexivity.
  - right. exists index. rewrite read_write_other in Hk by congruence. exact Hk.
Qed.

Lemma ht_insert_no_tombstone fuel ht key value ht' :
  ht_insert fuel ht key value = Done ht' -> no_tombstone ht -> no_tombstone ht'.
Proof.
  intros H Hno index Ht.
  apply ht_insert_written_slot in H as (p & Hp & Hpos & Hitems).
  rewrite Hitems in Ht.
  destruct (Z.eq_dec index p) as [->|Hne].
  - destruct Hp as [Hp | [old Hp]];
      rewrite (read_write_same _ _ _ _ Hp) in Ht; discriminate.
  - rewrite read_write_other in Ht by congruence. exact (Hno _ Ht).
Qed.

(** The loop of [ht_resize] keeps the invariants of the table it fills. *)
Lemma ht_resize_loop_inv fuel old : forall new_ht new_ht',
  ht_resize_loop fuel old new_ht = Done new_ht' ->
  table_ok new_ht -> count_ok new_ht -> no_tombstone new_ht ->
  table_ok new_ht' /\ count_ok new_ht' /\ no_tombstone new_ht' /\
  size new_ht' = size new_ht /\ base_size new_ht' = base_size new_ht.
Proof.
  induction old as [|s old IH]; intros new_ht new_ht' H Hok Hc Hno.
  - injection H as <-.
    split; [exact Hok | split; [exact Hc | split; [exact Hno | split; reflexivity]]].
  - destruct s as [| |k v]; simpl in H; try (apply IH; assumption).
    apply bind_Done in H as (ht1 & Hins & H).
    destruct (IH _ _ H) as (Hok' & Hc' & Hno' & Hsize & Hbase).
    + eapply table_ok_insert; eassumption.
    + eapply count_ok_insert; eassumption.
    + eapply ht_insert_no_tombstone; eassumption.
    + apply ht_insert_Done in Hins as (r & _ & Hat).
      apply insert_at_Done in Hat as (_ & Hs1 & Hb1 & _).
      split; [exact Hok' | split; [exact Hc' | split; [exact Hno' |]]].
      split; congruence.
Qed.

(** Every item the loop of [ht_resize] finds in the table it has filled
    was there before or is a live item of the old array. *)
Lemma ht_resize_loop_origin fuel old : forall new_ht new_ht' k v,
  ht_resize_loop fuel old new_ht = Done new_ht' ->
  has_item new_ht' k v -> has_item new_ht k v \/ In (Occupied k v) old.
Proof.
  induction old as [|s old IH]; intros new_ht new_ht' k v H Hk.
  - injection H as <-. left. exact Hk.
  - destruct s as [| |k0 v0]; simpl in H.
    + destruct (IH _ _ _ _ H Hk); [left | right; right]; assumption.
    + destruct (IH _ _ _ _ H Hk); [left | right; right]; assumption.
    + apply bind_Done in H as (ht1 & Hins & H).
      destruct (IH _ _ _ _ H Hk) as [H1 | Hin]; [| right; right; exact Hin].
      destruct (ht_insert_item_origin _ _ _ _ _ _ _ Hins H1) as [[-> ->] | H0].
      * right. left. reflexivity.
      * left. exact H0.
Qed.

Lemma live_keys_In its k v : In (Occupied k v) its -> In k (live_keys its).
Proof.
  induction its as [|s its IH]; intros H; [contradiction |].
  destruct H as [-> | H]; [left; reflexivity |].
  destruct s; simpl; auto.
Qed.

(** When the live keys of the old array are distinct, the loop of
    [ht_resize] carries every live item over. *)
Lemma ht_resize_loop_keeps fuel old : forall new_ht new_ht',
  ht_resize_loop fuel old new_ht = Done new_ht' ->
  NoDup (live_keys old) ->
  (forall k v, In (Occupied k v) old -> has_item new_ht' k v) /\
  (forall k v, has_item new_ht k v -> ~ In k (live_keys old) ->
               has_item new_ht' k v).
Proof.
  induction old as [|s old IH]; intros new_ht new_ht' H Hnd.
  - injection H as <-. split; [intros k v [] | intros k v Hk _; exact Hk].
  - destruct s as [| |k0 v0]; simpl in H, Hnd.
    + destruct (IH _ _ H Hnd) as [H1 H2]. split; [| exact H2].
      intros k v [[=] | Hin]. apply H1, Hin.
    + destruct (IH _ _ H Hnd) as [H1 H2]. split; [| exact H2].
      intros k v [[=] | Hin]. apply H1, Hin.
    + apply bind_Done in H as (ht1 & Hins & H).
      apply NoDup_cons in Hnd as [Hnotin Hnd].
      destruct (IH _ _ H Hnd) as [H1 H2]. split.
      * intros k v [[= <- <-] | Hin]; [| apply H1, Hin].
        apply H2; [| rewrite <- list_elem_of_In; exact Hnotin].
        eapply ht_insert_has_item. exact Hins.
      * intros k v Hk Hnot. apply H2.
        -- eapply ht_insert_other_item; [exact Hins | | exact Hk].
           intros ->. apply Hnot. left. reflexivity.
        -- intros Hin. apply Hnot. right. exact Hin.
Qed.

Lemma has_item_In ht k v : has_item ht k v <-> In (Occupied k v) (items ht).
Proof.
  split.
  - intros [index H]. apply read_slot_Done in H as [_ H].
    apply list_elem_of_In. eapply list_elem_of_lookup_2. exact H.
  - intros H. apply list_elem_of_In, list_elem_of_lookup_1 in H as [i Hi].
    exists (Z.of_nat i). apply read_slot_Done. split; [lia |].
    rewrite Nat2Z.id. exact Hi.
Qed.

Lemma live_keys_lookup its k :
  In k (live_keys its) -> exists i v, its !! i = Some (Occupied k v).
Proof.
  induction its as [|s its IH]; intros H; [contradiction |].
  destruct s as [| |k0 v0]; simpl in H.
  - destruct (IH H) as (i & v & Hi). exists (S i), v. exact Hi.
  - destruct (IH H) as (i & v & Hi). exists (S i), v. exact Hi.
  - destruct H as [-> | H]; [exists 0%nat, v0; reflexivity |].
    destruct (IH H) as (i & v & Hi). exists (S i), v. exact Hi.
Qed.

Lemma no_dup_live_keys its :
  (forall i j k v1 v2,
     its !! i = Some (Occupied k v1) -> its !! j = Some (Occupied k v2) ->
     i = j) ->
  NoDup (live_keys its).
Proof.
  induction its as [|s its IH]; intros Hnd; [constructor |].
  assert (Htail : NoDup (live_keys its)).
  { apply IH. intros i j k v1 v2 Hi Hj.
    specialize (Hnd (S i) (S j) k v1 v2 Hi Hj). lia. }
  destruct s as [| |k0 v0]; simpl; try exact Htail.
  constructor; [| exact Htail].
  rewrite list_elem_of_In. intros Hin.
  destruct (live_keys_lookup _ _ Hin) as (j & v & Hj).
  specialize (Hnd 0%nat (S j) k0 v0 v eq_refl Hj). discriminate.
Qed.

Lemma no_dup_keys_live_keys ht :
  no_dup_keys ht -> NoDup (live_keys (items ht)).
Proof.
  intros Hnd. apply no_dup_live_keys. intros i j k v1 v2 Hi Hj.
  apply Nat2Z.inj. apply (Hnd _ _ k).
  - exists v1. apply read_slot_Done. split; [lia |]. rewrite Nat2Z.id. exact Hi.
  - exists v2. apply read_slot_Done. split; [lia |]. rewrite Nat2Z.id. exact Hj.
Qed.

Lemma next_prime_loop_ge fuel : forall x, x <= next_prime_loop fuel x.
Proof.
  induction fuel as [|fuel IH]; intros x; simpl; [lia |].
  destruct (is_prime x); [lia |]. specialize (IH (x + 1)). lia.
Qed.

Lemma next_prime_loop_le fuel p : forall x,
  is_prime p = true -> x <= p -> next_prime_loop fuel x <= p.
Proof.
  induction fuel as [|fuel IH]; intros x Hp Hx; simpl; [exact Hx |].
  destruct (is_prime x) eqn:Hpx; [exact Hx |].
  apply IH; [exact Hp |].
  assert (x <> p) by congruence. lia.
Qed.

Lemma table_ok_new_sized base : table_ok (ht_new_sized base).
Proof.
  intros index k v H. apply read_slot_Done in H as [_ H].
  apply lookup_replicate in H as [[=] _].
Qed.

Lemma count_ok_new_sized base : 0 <= next_prime base -> count_ok (ht_new_sized base).
Proof.
  intros Hn. split; simpl.
  - induction (Z.to_nat (next_prime base)) as [|n IH]; [reflexivity | exact IH].
  - rewrite length_replicate. lia.
Qed.

Lemma no_tombstone_new_sized base : no_tombstone (ht_new_sized base).
Proof.
  intros index H. apply read_slot_Done in H as [_ H].
  apply lookup_replicate in H as [[=] _].
Qed.

(** What [ht_resize] hands back when it rebuilds. *)
Lemma ht_resize_Done fuel ht base ht' :
  HT_INITIAL_BASE_SIZE <= base ->
  ht_resize fuel ht base = Done ht' ->
  ht_resize_loop fuel (items ht) (ht_new_sized base) = Done ht' /\
  base_size ht' = base /\ size ht' = next_prime base /\
  table_ok ht' /\ count_ok ht' /\ no_tombstone ht'.
Proof.
  intros Hbase H. unfold ht_resize in H.
  destruct (Z.ltb_spec base HT_INITIAL_BASE_SIZE); [lia |].
  apply bind_Done in H as (new_ht & Hloop & H).
  assert (Heta : ht' = new_ht) by (destruct new_ht; injection H as <-; reflexivity).
  subst ht'. split; [exact Hloop |].
  destruct (ht_resize_loop_inv _ _ _ _ Hloop) as (Hok & Hc & Hno & Hsize & Hb).
  - apply table_ok_new_sized.
  - apply count_ok_new_sized.
    pose proof (next_prime_loop_ge (Z.to_nat base + 2) base).
    unfold next_prime, HT_INITIAL_BASE_SIZE in *. lia.
  - apply no_tombstone_new_sized.
  - split; [exact Hb |]. split; [exact Hsize |].
    split; [exact Hok |]. split; [exact Hc | exact Hno].
Qed.

(** X22.  When [ht_resize] rebuilds (a base size of at least 50) and
    returns, on any table, the new table has the asked base size and the
    next prime as capacity, holds no tombstone and no key twice, has
    [count] equal to its number of live items, and every item it holds is
    an item of the old table. *)
Theorem resize_builds_clean_table fuel ht base ht' :
  HT_INITIAL_BASE_SIZE <= base ->
  ht_resize fuel ht base = Done ht' ->
  base_size ht' = base /\ size ht' = next_prime base /\
  size ht' = Z.of_nat (length (items ht')) /\
  no_tombstone ht' /\ no_dup_keys ht' /\
  count ht' = Z.of_nat (live_items (items ht')) /\
  forall k v, has_item ht' k v -> has_item ht k v.
Proof.
  intros Hbase H.
  destruct (ht_resize_Done _ _ _ _ Hbase H)
    as (Hloop & Hb & Hsize & Hok & [Hcount Hlen] & Hno).
  split; [exact Hb |]. split; [exact Hsize |]. split; [exact Hlen |].
  split; [exact Hno |]. split; [apply table_ok_no_dup, Hok |].
  split; [exact Hcount |].
  intros k v Hk.
  destruct (ht_resize_loop_origin _ _ _ _ _ _ Hloop Hk) as [[index Hnew] | Hin].
  - apply read_slot_Done in Hnew as [_ Hnew].
    apply lookup_replicate in Hnew as [[=] _].
  - apply has_item_In. exact Hin.
Qed.

Lemma resize_builds_clean_table_witness :
  base_size t_b_resized = 50 /\ size t_b_resized = next_prime 50 /\
  size t_b_resized = Z.of_nat (length (items t_b_resized)) /\
  no_tombstone t_b_resized /\ no_dup_keys t_b_resized /\
  count t_b_resized = Z.of_nat (live_items (items t_b_resized)) /\
  forall k v, has_item t_b_resized k v -> has_item t_b k v.
Proof.
  refine (resize_builds_clean_table 1 t_b 50 t_b_resized _ eq_refl).
  unfold HT_INITIAL_BASE_SIZE. lia.
Defined.

(** X23.  When [ht_resize] rebuilds a table that holds no key twice and
    returns, every item of the old table is an item of the new one, and
    [ht_search] on the new table returns its value. *)
Theorem resize_keeps_items fuel ht base ht' k v :
  no_dup_keys ht ->
  HT_INITIAL_BASE_SIZE <= base ->
  ht_resize fuel ht base = Done ht' ->
  has_item ht k v ->
  has_item ht' k v /\ exists fuel', ht_search fuel' ht' k = Done (Some v).
Proof.
  intros Hnd Hbase H Hk.
  destruct (ht_resize_Done _ _ _ _ Hbase H) as (Hloop & _ & _ & Hok & _).
  destruct (ht_resize_loop_keeps _ _ _ _ Hloop (no_dup_keys_live_keys _ Hnd))
    as [Hkeep _].
  assert (Hk' : has_item ht' k v) by (apply Hkeep, has_item_In, Hk).
  split; [exact Hk' |].
  destruct Hk' as [index Hidx]. eapply ht_search_present; eassumption.
Qed.

Lemma resize_keeps_items_witness :
  has_item t_b_resized "b" "2" /\
  exists fuel', ht_search fuel' t_b_resized "b" = Done (Some "2").
Proof.
  refine (resize_keeps_items 1 t_b 50 t_b_resized "b" "2" _ _ eq_refl _).
  - apply table_ok_no_dup, reachable_table_ok.
    exact (reachable_delete 1 t_ab "a" t_b
             (reachable_insert 1 t_a "b" "2" t_ab
                (reachable_insert 1 ht_new "a" "1" t_a reachable_new eq_refl)
                eq_refl)
             eq_refl).
  - unfold HT_INITIAL_BASE_SIZE. lia.
  - exists 45. reflexivity.
Defined.

(** X24.  [ht_resize_down] does nothing to a table whose base size is at
    most 95: the target [next_prime (base_size / 2)] is then at most 47,
    below the floor of 50.  This covers every reachable table. *)
Theorem resize_down_refused_below_floor fuel ht :
  base_size ht <= 95 ->
  ht_resize_down fuel ht = Done ht.
Proof.
  intros Hb. unfold ht_resize_down, ht_resize.
  assert (Hq : Z.quot (base_size ht) 2 <= 47).
  { change 47 with (Z.quot 95 2). apply Z.quot_le_mono; lia. }
  assert (Hnp : next_prime (Z.quot (base_size ht) 2) <= 47).
  { unfold next_prime. apply next_prime_loop_le; [reflexivity | exact Hq]. }
  destruct (Z.ltb_spec (next_prime (Z.quot (base_size ht) 2)) HT_INITIAL_BASE_SIZE);
    [reflexivity | unfold HT_INITIAL_BASE_SIZE in *; lia].
Qed.

Lemma resize_down_refused_below_floor_witness :
  ht_resize_down 1 t_ab = Done t_ab.
Proof.
  refine (resize_down_refused_below_floor 1 t_ab _).
  change (base_size t_ab) with 50. lia.
Defined.

(** X25.  When [ht_resize_up] returns on a table that holds no key twice
    and has a base size of at least 25, the new base size is the next
    prime after twice the old one, no bucket holds the tombstone, and the
    new table holds exactly the items of the old one. *)
Theorem resize_up_keeps_items fuel ht ht' :
  no_dup_keys ht ->
  25 <= base_size ht ->
  ht_resize_up fuel ht = Done ht' ->
  base_size ht' = next_prime (base_size ht * 2) /\
  size ht' = next_prime (next_prime (base_size ht * 2)) /\
  no_tombstone ht' /\
  forall k v, has_item ht' k v <-> has_item ht k v.
Proof.
  intros Hnd Hb H. unfold ht_resize_up in H.
  apply bind_Done in H as (doubled & Hd & H).
  apply int_val_Done in Hd. subst doubled.
  assert (Hbase : HT_INITIAL_BASE_SIZE <= next_prime (base_size ht * 2)).
  { pose proof (next_prime_loop_ge (Z.to_nat (base_size ht * 2) + 2)
                  (base_size ht * 2)).
    unfold next_prime, HT_INITIAL_BASE_SIZE. lia. }
  destruct (ht_resize_Done _ _ _ _ Hbase H) as (Hloop & Hbs & Hsize & _ & _ & Hno).
  split; [exact Hbs |]. split; [exact Hsize |]. split; [exact Hno |].
  intros k v. split.
  - intros Hk.
    destruct (ht_resize_loop_origin _ _ _ _ _ _ Hloop Hk) as [[index Hnew] | Hin].
    + apply read_slot_Done in Hnew as [_ Hnew].
      apply lookup_replicate in Hnew as [[=] _].
    + apply has_item_In. exact Hin.
  - intros Hk.
    destruct (ht_resize_loop_keeps _ _ _ _ Hloop (no_dup_keys_live_keys _ Hnd))
      as [Hkeep _].
    apply Hkeep, has_item_In, Hk.
Qed.

Lemma resize_up_keeps_items_witness :
  base_size t_b_up = next_prime (base_size t_b * 2) /\
  size t_b_up = next_prime (next_prime (base_size t_b * 2)) /\
  no_tombstone t_b_up /\
  forall k v, has_item t_b_up k v <-> has_item t_b k v.
Proof.
  refine (resize_up_keeps_items 1 t_b t_b_up _ _ eq_refl).
  - apply table_ok_no_dup, reachable_table_ok.
    exact (reachable_delete 1 t_ab "a" t_b
             (reachable_insert 1 t_a "b" "2" t_ab
                (reachable_insert 1 ht_new "a" "1" t_a reachable_new eq_refl)
                eq_refl)
             eq_refl).
  - change (base_size t_b) with 50. lia.
Defined.

(** X26.  Deleting twice is deleting once: when [ht_delete] of a key has
    returned on a reachable table, a second [ht_delete] of the key that
    returns leaves the table as the first one left it. *)
Theorem delete_twice_is_delete_once fuel fuel' ht key ht' ht'' :
  reachable ht ->
  ht_delete fuel ht key = Done ht' ->
  ht_delete fuel' ht' key = Done ht'' ->
  ht'' = ht'.
Proof.
  intros Hreach H1 H2.
  pose proof (reachable_table_ok _ Hreach) as Hok.
  apply ht_delete_Done in H1 as (r1 & Hr1 & Hat1).
  apply ht_delete_Done in H2 as (r2 & Hr2 & Hat2).
  destruct r2 as [q v2|q]; [| injection Hat2 as <-; reflexivity].
  exfalso.
  destruct (probe_stop_slot _ _ _ _ Hr2) as (s2 & Hs2 & Hstop2).
  simpl in Hs2, Hstop2.
  apply stop_at_Some in Hstop2 as [[_ [=]] | (v & -> & _)].
  destruct r1 as [p v1|p].
  - apply delete_at_Done in Hat1 as (_ & _ & Hitems & _).
    destruct (probe_stop_slot _ _ _ _ Hr1) as (s1 & Hs1 & _). simpl in Hs1.
    pose proof (proj1 (read_slot_Done _ _ _) Hs1) as [Hpos _].
    rewrite Hitems in Hs2.
    destruct (Z.eq_dec q p) as [->|Hne].
    + rewrite (read_write_same _ _ _ _ Hs1) in Hs2. discriminate.
    + rewrite read_write_other in Hs2 by congruence.
      destruct (Hok _ _ _ Hs2) as [f Hf].
      pose proof (probe_deterministic _ _ _ _ _ _ Hr1 Hf) as [= -> _].
      contradiction.
  - injection Hat1 as <-.
    pose proof (probe_deterministic _ _ _ _ _ _ Hr1 Hr2). discriminate.
Qed.

Lemma delete_twice_is_delete_once_witness :
  result_or ht_new (ht_delete 2 t_a_deleted "a") = t_a_deleted.
Proof.
  refine (delete_twice_is_delete_once 1 2 t_a "a" t_a_deleted _ _ eq_refl eq_refl).
  exact (reachable_insert 1 ht_new "a" "1" t_a reachable_new eq_refl).
Defined.
